(** * spark-struct-update: path-driven rebuild of nested struct columns

    A shallow embedding of [udf.py] ([struct_repl], [group_to_primitive],
    [update_struct]).  The Python code builds column expressions of the
    host engine; here a column is what its expression denotes on one row:
    a value, or the failure the engine reports for it. *)

From Stdlib Require Import String Ascii List ZArith Bool Arith Lia.
Import ListNotations.

Set Warnings "-register-all".

Local Open Scope string_scope.
Local Open Scope list_scope.

(** ** Python strings: [str.split] and [str.join] *)

Module PyStr.

(** [s.split(sep)] for a one-character separator: cuts at every
    occurrence of [sep], keeps empty pieces, and always returns at least
    one piece (["".split(".")] is [[""]]). *)
Fixpoint split (sep : ascii) (s : string) : list string :=
  match s with
  | EmptyString => [EmptyString]
  | String c s' =>
      if Ascii.eqb c sep then EmptyString :: split sep s'
      else match split sep s' with
           | [] => [String c EmptyString]
           | piece :: pieces => String c piece :: pieces
           end
  end.

(** [sep.join(pieces)]. *)
Definition join (sep : string) (pieces : list string) : string :=
  String.concat sep pieces.

(** [len(s) > 0] *)
Definition nonempty (s : string) : bool := Nat.ltb 0 (String.length s).

(** The character [c] does not occur in [s]. *)
Fixpoint free_of (c : ascii) (s : string) : Prop :=
  match s with
  | EmptyString => True
  | String c' s' => c' <> c /\ free_of c s'
  end.

End PyStr.

Definition dot : ascii := "."%char.

(** ** Values and errors *)

(** Payload of a primitive. *)
Inductive Scalar : Type :=
| SInt (z : Z)
| SStr (s : string)
| SBool (b : bool).

(** A nested value.  A primitive and a null carry their declared type
    tag. *)
Inductive Value : Type :=
| VNull (ty : string)
| VPrim (ty : string) (payload : Scalar)
| VStruct (fields : list (string * Value))
| VArray (elems : list Value).

Inductive Error : Type :=
| PathNotFound    (* no field of that name in the struct *)
| TypeMismatch    (* a struct, an array or a primitive was expected *)
| AnalysisError   (* the engine refuses the expression *)
| IndexError      (* [types[0]] on an empty argument list *)
| TypeError       (* unexpected keyword argument *)
| RecursionError. (* the interpreter's recursion limit *)

Inductive Result (A : Type) : Type :=
| Ok (a : A)
| Err (e : Error).
Arguments Ok {A} a.
Arguments Err {A} e.

Definition bind {A B} (r : Result A) (k : A -> Result B) : Result B :=
  match r with
  | Ok a => k a
  | Err e => Err e
  end.

Notation "x <- r ;; k" := (bind r (fun x => k))
  (at level 61, r at next level, right associativity).

Fixpoint mapM {A B} (f : A -> Result B) (l : list A) : Result (list B) :=
  match l with
  | [] => Ok []
  | a :: l' => b <- f a ;; bs <- mapM f l' ;; Ok (b :: bs)
  end.

(** ** The column API of the host engine *)

Module Column.

(** [F.Column]: an expression, taken as what it denotes on a row.  A
    column that fails is still a column: the failure shows only where the
    column is used.  The engine checks an expression against the schema
    before it reads any row; here the check and the evaluation are one, on
    the row at hand. *)
Definition Column : Type := Result Value.

Fixpoint lookup (name : string) (fields : list (string * Value)) : option Value :=
  match fields with
  | [] => None
  | (n, v) :: rest => if String.eqb n name then Some v else lookup name rest
  end.

Definition has_field (name : string) (fields : list (string * Value)) : bool :=
  existsb (fun nv => String.eqb (fst nv) name) fields.

Definition replace (name : string) (v : Value) (fields : list (string * Value))
  : list (string * Value) :=
  map (fun nv => if String.eqb (fst nv) name then (fst nv, v) else nv) fields.

(** Modelled from the spec: [Column.getField] of pyspark, an external
    collaborator that is not in the repository.  Reads a named field of a
    struct; a missing field is PathNotFound, a value that is not a struct
    is TypeMismatch. *)
Definition getField (col : Column) (name : string) : Column :=
  v <- col ;;
  match v with
  | VStruct fields =>
      match lookup name fields with
      | Some x => Ok x
      | None => Err PathNotFound
      end
  | _ => Err TypeMismatch
  end.

(** Modelled from the spec: [Column.withField] of pyspark.  Replaces the
    named field in place, keeping the field order; a field that did not
    exist is appended; a value that is not a struct is TypeMismatch. *)
Definition withField (col : Column) (name : string) (new : Column) : Column :=
  v <- col ;;
  x <- new ;;
  match v with
  | VStruct fields =>
      if has_field name fields then Ok (VStruct (replace name x fields))
      else Ok (VStruct (fields ++ [(name, x)]))
  | _ => Err TypeMismatch
  end.

(** Modelled from the spec: [F.transform] of pyspark.  Maps a function
    over every element of an array, in order; a failing element fails the
    whole; a value that is not an array is TypeMismatch. *)
Definition transform (col : Column) (f : Column -> Column) : Column :=
  v <- col ;;
  match v with
  | VArray elems => elems' <- mapM (fun e => f (Ok e)) elems ;; Ok (VArray elems')
  | _ => Err TypeMismatch
  end.

Definition is_null (v : Value) : bool :=
  match v with
  | VNull _ => true
  | _ => false
  end.

Fixpoint coalesce_from (fallback : Value) (vs : list Value) : Value :=
  match vs with
  | [] => fallback
  | v :: rest => if is_null v then coalesce_from fallback rest else v
  end.

(** Modelled from the spec: [F.coalesce] of pyspark.  The first argument,
    in order, that is not null; when all are null, a null.  The engine
    refuses an empty argument list. *)
Definition coalesce (cols : list Column) : Column :=
  vs <- mapM (fun c => c) cols ;;
  match vs with
  | [] => Err AnalysisError
  | v :: rest => Ok (coalesce_from v (v :: rest))
  end.

(** [F.lit] applied to a column is that column. *)
Definition lit (col : Column) : Column := col.

Definition type_tag (v : Value) : option string :=
  match v with
  | VNull ty => Some ty
  | VPrim ty _ => Some ty
  | _ => None
  end.


(** The fields of a struct other than [name], with their values, in
    order. *)
Definition others (name : string) (col : Column) : Result (list (string * Value)) :=
  v <- col ;;
  match v with
  | VStruct fields =>
      Ok (filter (fun nv => negb (String.eqb (fst nv) name)) fields)
  | _ => Err TypeMismatch
  end.

Section Cast.

(** How the engine converts a non-null scalar of type [from] to type
    [to]; [None] when the payload has no image in the target type (the
    engine then yields a null). *)
Variable convert : forall (from to : string), Scalar -> option Scalar.

(** Modelled from the spec: [Column.cast] of pyspark, restricted to
    primitives.  The result is always typed as the target; a null stays
    null. *)
Definition cast (col : Column) (ty : string) : Column :=
  v <- col ;;
  match v with
  | VNull _ => Ok (VNull ty)
  | VPrim from payload =>
      match convert from ty payload with
      | Some payload' => Ok (VPrim ty payload')
      | None => Ok (VNull ty)
      end
  | _ => Err TypeMismatch
  end.

End Cast.

End Column.

Import Column.

(** ** The traverser: [update_struct] *)

(** A call that may exhaust its budget of stack frames: [None] is "budget
    exhausted", [Some c] is the column [c] returned. *)
Definition Call : Type := option Column.

Definition call_bind (c : Call) (k : Column -> Call) : Call :=
  match c with
  | None => None
  | Some col => k col
  end.

Notation "x <~ c ;; k" := (call_bind c (fun x => k))
  (at level 61, c at next level, right associativity).

(** [if array_path] of Python: neither [None] nor the empty string. *)
Definition truthy (array_path : option string) : bool :=
  match array_path with
  | Some s => PyStr.nonempty s
  | None => false
  end.

(** Number of segments of a dotted path, the empty path having none. *)
Definition path_len (remaining : string) : nat :=
  if PyStr.nonempty remaining then length (PyStr.split dot remaining) else 0.

Section Traverser.

(** The extra arguments [*args, **kwargs], handed unchanged to the leaf. *)
Context {Args : Type}.

Definition LeafTransform : Type := Column -> string -> Args -> Column.

Definition Traversal : Type :=
  Column -> string -> LeafTransform -> option string -> Args -> Call.

(** The body of [update_struct]; its recursive calls go to [self]. *)
Definition update_struct_body (self : Traversal)
  (col : Column) (remaining : string) (struct_func : LeafTransform)
  (array_path : option string) (args : Args) : Call :=
  let field_name := hd "" (PyStr.split dot remaining) in
  let _remaining := tl (PyStr.split dot remaining) in
  (* Traverse struct recursively *)
  if Nat.ltb 0 (length _remaining) && PyStr.nonempty field_name then
    let remaining := PyStr.join "." _remaining in
    new <~ self (getField col field_name) remaining struct_func array_path args ;;
    Some (withField col field_name new)
  (* Last traversal before function application *)
  else if Nat.eqb (length _remaining) 0 && PyStr.nonempty field_name
          && truthy array_path then
    new <~ self (getField col field_name) "" struct_func array_path args ;;
    Some (withField col field_name new)
  else
    match array_path with
    (* Array Handling *)
    | Some array_path =>
        let a_field_name := hd "" (PyStr.split dot array_path) in
        let _a_remaining := tl (PyStr.split dot array_path) in
        let a_remaining := PyStr.join "." _a_remaining in
        Some (withField col a_field_name
                (transform (getField col a_field_name)
                   (fun c => struct_func c a_remaining args)))
    (* Single Value Handling *)
    | None =>
        Some (withField col field_name
                (struct_func (getField col field_name) field_name args))
    end.

(** [update_struct] run with a budget of [fuel] stack frames. *)
Fixpoint update_struct_fuel (fuel : nat) : Traversal :=
  match fuel with
  | 0 => fun _ _ _ _ _ => None
  | S fuel' => update_struct_body (update_struct_fuel fuel')
  end.

(** [update_struct]: one frame more than the path has segments is always
    enough (lemma [update_struct_fuel_enough] below), so the
    [RecursionError] branch is never taken. *)
Definition update_struct (col : Column) (remaining : string)
  (struct_func : LeafTransform) (array_path : option string) (args : Args)
  : Column :=
  match update_struct_fuel (S (path_len remaining))
          col remaining struct_func array_path args with
  | Some c => c
  | None => Err RecursionError
  end.

End Traverser.

(** ** The leaf transforms: [group_to_primitive] and [struct_repl] *)

Section Coalescer.

Variable convert : forall (from to : string), Scalar -> option Scalar.

Definition group_to_primitive (col : Column) (remaining : string)
  (types : list string) : Column :=
  let coalesced := lit (coalesce (map (fun t => getField col t) types)) in
  match nth_error types 0 with
  | Some canonical => cast convert coalesced canonical
  | None => Err IndexError
  end.

(** [group_to_primitive] takes no keyword argument: any [**kwargs] that
    reaches it raises. *)
Definition group_to_primitive_kw (col : Column) (remaining : string)
  (extra : list string * list (string * Value)) : Column :=
  match snd extra with
  | [] => group_to_primitive col remaining (fst extra)
  | _ :: _ => Err TypeError
  end.

Definition struct_repl (col : Column) (remaining : string)
  (extra : list string * list (string * Value)) : Column :=
  let _split := PyStr.split dot remaining in
  let col_name := hd "" _split in
  let remaining_fields := PyStr.join "." (tl _split) in
  withField col col_name
    (update_struct (getField col col_name) remaining_fields
       group_to_primitive_kw None extra).

End Coalescer.

(** ** The states of the traversal *)

(** Guard of the first branch of [update_struct]: descend. *)
Definition descends (remaining : string) : bool :=
  Nat.ltb 0 (length (tl (PyStr.split dot remaining)))
  && PyStr.nonempty (hd "" (PyStr.split dot remaining)).

(** Guard of the second branch: last hop before the array is handled. *)
Definition pre_terminal (remaining : string) (array_path : option string) : bool :=
  Nat.eqb (length (tl (PyStr.split dot remaining))) 0
  && PyStr.nonempty (hd "" (PyStr.split dot remaining))
  && truthy array_path.

(** The [else] branch: array handling or single value handling. *)
Definition terminal (remaining : string) (array_path : option string) : bool :=
  negb (descends remaining) && negb (pre_terminal remaining array_path).


(** ** Paths into a value *)

(** The column found by following field names from [col] downwards. *)
Definition get_path (col : Column) (path : list string) : Column :=
  fold_left getField path col.

(** ** The traversal written out segment by segment *)

(** Descend through [segments], run [at_end] on the column reached, and
    write every level back on the way up. *)
Fixpoint rebuild_along (segments : list string) (at_end : Column -> Column)
  (col : Column) : Column :=
  match segments with
  | [] => at_end col
  | s :: rest => withField col s (rebuild_along rest at_end (getField col s))
  end.

(** The single value handling of [update_struct], on the field
    [field_name]. *)
Definition scalar_step {Args : Type} (leaf : @LeafTransform Args) (args : Args)
  (field_name : string) (col : Column) : Column :=
  withField col field_name (leaf (getField col field_name) field_name args).

(** The array handling of [update_struct], for the array path
    [array_path]. *)
Definition array_step {Args : Type} (leaf : @LeafTransform Args) (args : Args)
  (array_path : string) (col : Column) : Column :=
  withField col (hd "" (PyStr.split dot array_path))
    (transform (getField col (hd "" (PyStr.split dot array_path)))
       (fun c => leaf c (PyStr.join "." (tl (PyStr.split dot array_path))) args)).


(** The leaf [g] after the leaf [f]. *)
Definition leaf_after {Args : Type} (g f : @LeafTransform Args) : @LeafTransform Args :=
  fun col remaining args => g (f col remaining args) remaining args.

(** ** Fixtures of the end-to-end scenarios *)

Module Fixtures.

Definition int (z : Z) : Value := VPrim "int" (SInt z).

(** Scenario A: [{a: {b: {c: 1, d: 2}}}]. *)
Definition rootA : Value :=
  VStruct [("a", VStruct [("b", VStruct [("c", int 1); ("d", int 2)])])].

Definition rootA' : Value :=
  VStruct [("a", VStruct [("b", VStruct [("c", int 2); ("d", int 2)])])].

(** Scenario B: [{items: [{x: 1}, {x: 2}]}]. *)
Definition rootB : Value :=
  VStruct [("items", VArray [VStruct [("x", int 1)]; VStruct [("x", int 2)]])].

Definition rootB' : Value :=
  VStruct [("items", VArray [VStruct [("x", int (-1))]; VStruct [("x", int (-2))]])].

(** Scenario C: [{value: {type_1: "5", type_2: null}}]. *)
Definition rootC : Value :=
  VStruct [("value", VStruct [("type_1", VPrim "type_1" (SStr "5"));
                              ("type_2", VNull "type_2")])].

Definition rootC' : Value :=
  VStruct [("value", VPrim "type_1" (SStr "5"))].

(** An array of drifted structs, for [struct_repl]. *)
Definition rootD : Value :=
  VStruct [("items", VArray [VStruct [("x", rootC)]; VStruct [("x", rootC)]])].

Definition rootD' : Value :=
  VStruct [("items", VArray [VStruct [("x", rootC')]; VStruct [("x", rootC')]])].

(** Arithmetic on an integer column. *)
Definition on_int (f : Z -> Z) (col : Column) : Column :=
  v <- col ;;
  match v with
  | VPrim ty (SInt z) => Ok (VPrim ty (SInt (f z)))
  | VNull ty => Ok (VNull ty)
  | _ => Err TypeMismatch
  end.

(** Leaf of scenario A: add one to the addressed value. *)
Definition increment (col : Column) (remaining : string) (args : unit) : Column :=
  on_int (fun z => z + 1)%Z col.

(** Leaf of scenario B: an array element arrives with the sub-path of the
    value to negate inside it. *)
Definition negate (col : Column) (remaining : string) (args : unit) : Column :=
  withField col remaining (on_int Z.opp (getField col remaining)).

(** The leaf that returns its column. *)
Definition identity (col : Column) (remaining : string) (args : unit) : Column :=
  col.

(** A conversion that keeps every payload. *)
Definition keep (from to : string) (payload : Scalar) : option Scalar :=
  Some payload.

End Fixtures.

(** ** Facts on [split] and [join] *)

Module PyStrFacts.
Import PyStr.

Lemma split_not_nil (sep : ascii) (s : string) : split sep s <> [].
Proof.
  destruct s as [| c s]; simpl; [discriminate |].
  destruct (Ascii.eqb c sep); [discriminate |].
  destruct (split sep s); discriminate.
Qed.

Lemma split_cons (sep : ascii) (s : string) :
  split sep s = hd "" (split sep s) :: tl (split sep s).
Proof.
  destruct (split sep s) eqn:E; [now apply split_not_nil in E | reflexivity].
Qed.

Lemma split_free (sep : ascii) (s : string) :
  Forall (free_of sep) (split sep s).
Proof.
  induction s as [| c s IH]; simpl.
  - repeat constructor.
  - destruct (Ascii.eqb c sep) eqn:E.
    + constructor; [exact I | exact IH].
    + apply Ascii.eqb_neq in E.
      destruct (split sep s) as [| p ps].
      * repeat constructor; assumption.
      * inversion IH; subst. constructor; [split; assumption | assumption].
Qed.

Lemma split_free_piece (sep : ascii) (p : string) :
  free_of sep p -> split sep p = [p].
Proof.
  induction p as [| c p IH]; simpl; [reflexivity |].
  intros [Hc Hp]. apply Ascii.eqb_neq in Hc. rewrite Hc, (IH Hp). reflexivity.
Qed.

Lemma split_app (sep : ascii) (p rest : string) :
  free_of sep p ->
  split sep (p ++ String sep rest) = p :: split sep rest.
Proof.
  induction p as [| c p IH]; simpl.
  - intros _. rewrite Ascii.eqb_refl. reflexivity.
  - intros [Hc Hp]. apply Ascii.eqb_neq in Hc. rewrite Hc, (IH Hp). reflexivity.
Qed.

(** Splitting undoes joining, for pieces free of the separator. *)
Lemma split_join (sep : ascii) (pieces : list string) :
  pieces <> [] -> Forall (free_of sep) pieces ->
  split sep (join (String sep "") pieces) = pieces.
Proof.
  unfold join. induction pieces as [| p ps IH]; [congruence |].
  intros _ H. inversion H as [| ? ? Hp Hps]; subst.
  destruct ps as [| q qs].
  - simpl. now apply split_free_piece.
  - change (String.concat (String sep "") (p :: q :: qs))
      with (p ++ String sep (String.concat (String sep "") (q :: qs)))%string.
    rewrite split_app by assumption.
    rewrite IH; [reflexivity | discriminate | assumption].
Qed.

(** Joining undoes splitting. *)
Lemma join_split (sep : ascii) (s : string) :
  join (String sep "") (split sep s) = s.
Proof.
  unfold join. induction s as [| c s IH]; [reflexivity |].
  simpl. destruct (Ascii.eqb c sep) eqn:E.
  - apply Ascii.eqb_eq in E. subst c.
    pose proof (split_not_nil sep s) as Hn.
    destruct (split sep s) as [| p ps]; [congruence |].
    simpl in *. now rewrite IH.
  - pose proof (split_not_nil sep s) as Hn.
    destruct (split sep s) as [| p ps]; [congruence |].
    destruct ps as [| q qs]; simpl in *; now rewrite <- IH.
Qed.

Lemma nonempty_false (s : string) : nonempty s = false -> s = "".
Proof. destruct s; [reflexivity | discriminate]. Qed.

Lemma nonempty_true (s : string) : nonempty s = true <-> s <> "".
Proof.
  destruct s; split; intro H; try reflexivity; try discriminate; congruence.
Qed.

(** A path whose first segment is not empty is not empty. *)
Lemma nonempty_head (sep : ascii) (s : string) :
  nonempty (hd "" (split sep s)) = true -> nonempty s = true.
Proof. destruct s; [discriminate | reflexivity]. Qed.

(** A path with more than one segment is not empty. *)
Lemma nonempty_tail (sep : ascii) (s : string) :
  tl (split sep s) <> [] -> nonempty s = true.
Proof. destruct s; simpl; [congruence | reflexivity]. Qed.

End PyStrFacts.

(** ** Facts on the traversal *)

Section TraverserFacts.
Import PyStr PyStrFacts.

Context {Args : Type}.
Variable struct_func : @LeafTransform Args.
Variable array_path : option string.
Variable args : Args.

Lemma path_len_descend (remaining : string) :
  descends remaining = true ->
  path_len (join "." (tl (split dot remaining))) < path_len remaining.
Proof.
  unfold descends. intros H. apply andb_true_iff in H as [Htl Hhd].
  apply Nat.ltb_lt in Htl.
  assert (Hne : tl (split dot remaining) <> [])
    by (intros E; rewrite E in Htl; simpl in Htl; lia).
  unfold path_len at 2. rewrite (nonempty_tail dot remaining Hne).
  rewrite (split_cons dot remaining) at 2. simpl length.
  unfold path_len. change "."%string with (String dot "").
  rewrite split_join.
  - destruct (nonempty (join _ _)); lia.
  - assumption.
  - pose proof (split_free dot remaining) as F.
    rewrite (split_cons dot remaining) in F. now inversion F.
Qed.

Lemma path_len_pre_terminal (remaining : string) :
  pre_terminal remaining array_path = true ->
  path_len "" < path_len remaining.
Proof.
  unfold pre_terminal. intros H.
  apply andb_true_iff in H as [H _]. apply andb_true_iff in H as [_ Hhd].
  unfold path_len at 2. rewrite (nonempty_head dot remaining Hhd).
  rewrite (split_cons dot remaining). simpl. unfold path_len. simpl. lia.
Qed.

Lemma terminal_not_descends (remaining : string) :
  terminal remaining array_path = true -> descends remaining = false.
Proof.
  unfold terminal. intros H. apply andb_true_iff in H as [H _].
  now apply negb_true_iff in H.
Qed.

Lemma terminal_not_pre_terminal (remaining : string) :
  terminal remaining array_path = true ->
  pre_terminal remaining array_path = false.
Proof.
  unfold terminal. intros H. apply andb_true_iff in H as [_ H].
  now apply negb_true_iff in H.
Qed.

(** The body consults [self] on strictly shorter paths only. *)
Lemma body_ext (self1 self2 : Traversal) (col : Column) (remaining : string) :
  (forall c r, path_len r < path_len remaining ->
               self1 c r struct_func array_path args
               = self2 c r struct_func array_path args) ->
  update_struct_body self1 col remaining struct_func array_path args
  = update_struct_body self2 col remaining struct_func array_path args.
Proof.
  intros Hself. unfold update_struct_body.
  pose proof (path_len_descend remaining) as Hd.
  pose proof (path_len_pre_terminal remaining) as Hp.
  unfold descends in Hd. unfold pre_terminal in Hp.
  destruct (_ && _).
  - rewrite Hself by auto. reflexivity.
  - destruct (_ && _ && _).
    + rewrite Hself by auto. reflexivity.
    + reflexivity.
Qed.

(** In a terminal state the body does not consult [self] at all. *)
Lemma body_terminal (self1 self2 : Traversal) (col : Column) (remaining : string) :
  terminal remaining array_path = true ->
  update_struct_body self1 col remaining struct_func array_path args
  = update_struct_body self2 col remaining struct_func array_path args.
Proof.
  intros T. pose proof (terminal_not_descends _ T) as Hd.
  pose proof (terminal_not_pre_terminal _ T) as Hp.
  unfold descends in Hd. unfold pre_terminal in Hp.
  unfold update_struct_body. rewrite Hd, Hp. reflexivity.
Qed.

(** The body returns as soon as [self] returns on shorter paths. *)
Lemma body_returns (self : Traversal) (col : Column) (remaining : string) :
  (forall c r, path_len r < path_len remaining ->
               self c r struct_func array_path args <> None) ->
  update_struct_body self col remaining struct_func array_path args <> None.
Proof.
  intros Hself. unfold update_struct_body.
  pose proof (path_len_descend remaining) as Hd.
  pose proof (path_len_pre_terminal remaining) as Hp.
  unfold descends in Hd. unfold pre_terminal in Hp.
  destruct (_ && _).
  - specialize (Hself (getField col (hd "" (split dot remaining))) _ (Hd eq_refl)).
    destruct (self _ _ _ _ _); simpl; congruence.
  - destruct (_ && _ && _).
    + specialize (Hself (getField col (hd "" (split dot remaining))) _ (Hp eq_refl)).
      destruct (self _ _ _ _ _); simpl; congruence.
    + destruct array_path; discriminate.
Qed.

Lemma fuel_stable (n : nat) :
  forall m col remaining,
    path_len remaining < n -> path_len remaining < m ->
    update_struct_fuel n col remaining struct_func array_path args
    = update_struct_fuel m col remaining struct_func array_path args
    /\ update_struct_fuel n col remaining struct_func array_path args <> None.
Proof.
  induction n as [| n IH]; intros m col remaining Hn Hm; [lia |].
  destruct m as [| m]; [lia |]. simpl. split.
  - apply body_ext. intros c r Hr. apply IH; lia.
  - apply body_returns. intros c r Hr. apply (IH n c r); lia.
Qed.

(** A budget of one frame more than the path has segments is enough, and
    the column returned is that of [update_struct]. *)
Lemma update_struct_fuel_enough (fuel : nat) (col : Column) (remaining : string) :
  path_len remaining < fuel ->
  update_struct_fuel fuel col remaining struct_func array_path args
  = Some (update_struct col remaining struct_func array_path args).
Proof.
  intros H. unfold update_struct.
  destruct (fuel_stable fuel (S (path_len remaining)) col remaining H
              (Nat.lt_succ_diag_r _)) as [E N].
  rewrite <- E.
  destruct (update_struct_fuel fuel col remaining struct_func array_path args);
    congruence.
Qed.

(** [update_struct] satisfies the recursive equation of the source. *)
Lemma update_struct_unfold (col : Column) (remaining : string) :
  update_struct col remaining struct_func array_path args =
  let field_name := hd "" (split dot remaining) in
  let _remaining := tl (split dot remaining) in
  if descends remaining then
    withField col field_name
      (update_struct (getField col field_name) (join "." _remaining)
         struct_func array_path args)
  else if pre_terminal remaining array_path then
    withField col field_name
      (update_struct (getField col field_name) "" struct_func array_path args)
  else
    match array_path with
    | Some array_path =>
        let a_field_name := hd "" (split dot array_path) in
        let a_remaining := join "." (tl (split dot array_path)) in
        withField col a_field_name
          (transform (getField col a_field_name)
             (fun c => struct_func c a_remaining args))
    | None =>
        withField col field_name
          (struct_func (getField col field_name) field_name args)
    end.
Proof.
  pose proof (update_struct_fuel_enough (S (path_len remaining)) col remaining
                (Nat.lt_succ_diag_r _)) as E.
  simpl in E.
  rewrite (body_ext _ (fun c r f a x => Some (update_struct c r f a x))) in E
    by (intros c r Hr; now apply update_struct_fuel_enough).
  unfold update_struct_body in E. fold (descends remaining) in E.
  fold (pre_terminal remaining array_path) in E. cbv zeta.
  destruct (descends remaining); [simpl in E; congruence |].
  destruct (pre_terminal remaining array_path); [simpl in E; congruence |].
  destruct array_path; congruence.
Qed.



End TraverserFacts.


(** ** Facts on the column API *)

Module ColumnFacts.


Lemma lookup_replace_same (name : string) (v : Value) (fields : list (string * Value)) :
  has_field name fields = true -> lookup name (replace name v fields) = Some v.
Proof.
  induction fields as [| [n w] rest IH]; simpl; [discriminate |].
  destruct (String.eqb n name) eqn:E; simpl; rewrite E; [reflexivity | exact IH].
Qed.

Lemma lookup_app_same (name : string) (v : Value) (fields : list (string * Value)) :
  has_field name fields = false -> lookup name (fields ++ [(name, v)]) = Some v.
Proof.
  induction fields as [| [n w] rest IH]; simpl.
  - now rewrite String.eqb_refl.
  - destruct (String.eqb n name); [discriminate | exact IH].
Qed.


Lemma filter_replace (name : string) (v : Value) (fields : list (string * Value)) :
  filter (fun nv => negb (String.eqb (fst nv) name)) (replace name v fields)
  = filter (fun nv => negb (String.eqb (fst nv) name)) fields.
Proof.
  induction fields as [| [n w] rest IH]; simpl; [reflexivity |].
  destruct (String.eqb n name) eqn:E; simpl; rewrite E; simpl; now rewrite IH.
Qed.

Lemma filter_append (name : string) (v : Value) (fields : list (string * Value)) :
  filter (fun nv => negb (String.eqb (fst nv) name)) (fields ++ [(name, v)])
  = filter (fun nv => negb (String.eqb (fst nv) name)) fields.
Proof.
  rewrite filter_app. simpl. rewrite String.eqb_refl. simpl. apply app_nil_r.
Qed.


(** A successful write: the column was a struct, the new column a value. *)
Lemma withField_ok (col : Column) (name : string) (new : Column) (r : Value) :
  withField col name new = Ok r ->
  exists fields x,
    col = Ok (VStruct fields) /\ new = Ok x
    /\ r = VStruct (if has_field name fields then replace name x fields
                    else fields ++ [(name, x)]).
Proof.
  destruct col as [[| | fields |] |]; destruct new as [x |];
    simpl; try discriminate.
  intros H. exists fields, x.
  destruct (has_field name fields); inversion H; now repeat split.
Qed.

(** Reading back the field just written. *)
Lemma getField_withField_same (col : Column) (name : string) (new : Column)
  (r : Value) :
  withField col name new = Ok r -> getField (Ok r) name = new.
Proof.
  intros H. destruct (withField_ok _ _ _ _ H) as (fields & x & -> & -> & ->).
  simpl. destruct (has_field name fields) eqn:E.
  - now rewrite lookup_replace_same.
  - now rewrite lookup_app_same.
Qed.

(** Writing a field leaves the other fields, their values and their order
    as they were. *)
Lemma others_withField (col : Column) (name : string) (new : Column) (r : Value) :
  withField col name new = Ok r -> others name (Ok r) = others name col.
Proof.
  intros H. destruct (withField_ok _ _ _ _ H) as (fields & x & -> & -> & ->).
  simpl. destruct (has_field name fields).
  - now rewrite filter_replace.
  - now rewrite filter_append.
Qed.



Lemma mapM_length {A B} (f : A -> Result B) (l : list A) (l' : list B) :
  mapM f l = Ok l' -> length l' = length l.
Proof.
  revert l'. induction l as [| a l IH]; simpl; intros l' H.
  - inversion H. reflexivity.
  - destruct (f a); simpl in H; [| discriminate].
    destruct (mapM f l); simpl in H; [| discriminate].
    inversion H. simpl. now rewrite (IH _ eq_refl).
Qed.

Lemma mapM_nth {A B} (f : A -> Result B) (l : list A) (l' : list B) :
  mapM f l = Ok l' ->
  forall i a, nth_error l i = Some a ->
              exists b, nth_error l' i = Some b /\ f a = Ok b.
Proof.
  revert l'. induction l as [| x l IH]; simpl; intros l' H i a Hi.
  - destruct i; discriminate.
  - destruct (f x) as [y |] eqn:Fx; simpl in H; [| discriminate].
    destruct (mapM f l) as [ys |]; simpl in H; [| discriminate].
    inversion H; subst. destruct i as [| i]; simpl in *.
    + inversion Hi; subst. now exists y.
    + now apply IH.
Qed.

Lemma mapM_ok {A B} (f : A -> Result B) (l : list A) :
  (forall a, In a l -> exists b, f a = Ok b) -> exists l', mapM f l = Ok l'.
Proof.
  induction l as [| x l IH]; simpl; intros H.
  - now exists [].
  - destruct (H x (or_introl eq_refl)) as [y Fx].
    destruct IH as [ys E]; [intros a Ha; apply H; now right |].
    rewrite Fx, E. simpl. now exists (y :: ys).
Qed.

End ColumnFacts.

(** ** Sibling preservation *)

Section SiblingPreservation.
Import PyStr PyStrFacts ColumnFacts.

Context {Args : Type}.
Variable leaf : @LeafTransform Args.
Variable array_path : option string.
Variable args : Args.

Lemma descends_cons (p : string) (s : string) (rest : list string) :
  split dot p = s :: rest -> s <> "" -> rest <> [] -> descends p = true.
Proof.
  intros E Hs Hr. unfold descends. rewrite E. simpl.
  apply andb_true_iff. split.
  - apply Nat.ltb_lt. destruct rest; [congruence | simpl; lia].
  - now apply nonempty_true.
Qed.

Lemma split_join_tail (p : string) (pre rest : list string) :
  split dot p = pre ++ rest -> rest <> [] -> split dot (join "." rest) = rest.
Proof.
  intros E Hr. change "."%string with (String dot "").
  apply split_join; [assumption |].
  pose proof (split_free dot p) as F. rewrite E in F.
  now apply Forall_app in F.
Qed.

Lemma get_path_cons (col : Column) (s : string) (rest : list string) :
  get_path col (s :: rest) = get_path (getField col s) rest.
Proof. reflexivity. Qed.

Lemma get_path_snoc (col : Column) (above : list string) (f : string) :
  get_path col (above ++ [f]) = getField (get_path col above) f.
Proof. unfold get_path. now rewrite fold_left_app. Qed.



End SiblingPreservation.




(** ** The coalescing leaf *)

Section CoalescerFacts.
Import ColumnFacts.

Variable convert : forall (from to : string), Scalar -> option Scalar.

(** Reading alternatives of which the first non-null one is [v]: the
    coalesce of what was read is [v]. *)
Lemma alternatives_first_non_null (col : Column) (before after : list string)
  (chosen : string) (v : Value) :
  (forall t, In t before -> exists ty, getField col t = Ok (VNull ty)) ->
  getField col chosen = Ok v -> is_null v = false ->
  (forall t, In t after -> exists w, getField col t = Ok w) ->
  exists vs,
    mapM (fun c => c) (map (fun t => getField col t) (before ++ chosen :: after))
    = Ok vs
    /\ vs <> []
    /\ forall fallback, coalesce_from fallback vs = v.
Proof.
  intros Hb Hc Hv Ha. induction before as [| t before IH]; cbn [app map mapM].
  - destruct (mapM_ok (fun c : Column => c) (map (fun t => getField col t) after))
      as [ws E].
    { intros c Hin. apply in_map_iff in Hin as (t & <- & Ht). now apply Ha. }
    unfold Column in *. rewrite Hc, E. cbn [bind]. exists (v :: ws). repeat split; [discriminate |].
    intros fallback. simpl. now rewrite Hv.
  - destruct (Hb t (or_introl eq_refl)) as [ty Ht].
    destruct IH as (vs & E & _ & C); [intros u Hu; apply Hb; now right |].
    unfold Column in *. rewrite Ht, E. cbn [bind]. exists (VNull ty :: vs).
    repeat split; [discriminate | exact C].
Qed.

(** Reading alternatives that are all null yields nulls only. *)
Lemma alternatives_all_null (col : Column) (types : list string) :
  (forall t, In t types -> exists ty, getField col t = Ok (VNull ty)) ->
  exists vs,
    mapM (fun c => c) (map (fun t => getField col t) types) = Ok vs
    /\ length vs = length types
    /\ (forall fallback, coalesce_from fallback vs = fallback)
    /\ (forall v, In v vs -> is_null v = true).
Proof.
  induction types as [| t types IH]; cbn [map mapM]; intros H.
  - exists []. repeat split. intros v [].
  - destruct (H t (or_introl eq_refl)) as [ty Ht].
    destruct IH as (vs & E & L & C & N); [intros u Hu; apply H; now right |].
    unfold Column in *. rewrite Ht, E. cbn [bind]. exists (VNull ty :: vs).
    repeat split; [simpl; now rewrite L | exact C |].
    intros v [<- | Hv]; [reflexivity | now apply N].
Qed.

Lemma cast_null (v : Value) (ty : string) :
  is_null v = true -> cast convert (Ok v) ty = Ok (VNull ty).
Proof. destruct v; simpl; congruence. Qed.

Lemma cast_type_tag (col : Column) (ty : string) (r : Value) :
  cast convert col ty = Ok r -> type_tag r = Some ty.
Proof.
  destruct col as [[| from payload | |] |]; simpl; try discriminate.
  - intros H. now inversion H.
  - destruct (convert from ty payload); intros H; now inversion H.
Qed.

End CoalescerFacts.

(** C2. Coalesce priority: for a struct that has a field for every type tag
    of the non-empty list [canonical :: others], [group_to_primitive]
    returns the value of the first field, in the order of the list, that is
    not null, cast to [canonical], the first entry of the list; whatever it
    returns is typed [canonical]. *)
Theorem coalesce_priority
  (convert : forall (from to : string), Scalar -> option Scalar)
  (col : Column) (remaining : string) (canonical : string) (others : list string)
  (before : list string) (chosen : string) (after : list string) (v : Value) :
  canonical :: others = before ++ chosen :: after ->
  (forall t, In t before -> exists ty, getField col t = Ok (VNull ty)) ->
  getField col chosen = Ok v -> is_null v = false ->
  (forall t, In t after -> exists w, getField col t = Ok w) ->
  group_to_primitive convert col remaining (canonical :: others)
  = cast convert (Ok v) canonical
  /\ forall r, group_to_primitive convert col remaining (canonical :: others) = Ok r ->
               type_tag r = Some canonical.
Proof.
  intros E Hb Hc Hv Ha.
  destruct (alternatives_first_non_null col before after chosen v Hb Hc Hv Ha)
    as (vs & M & N & C).
  assert (G : group_to_primitive convert col remaining (canonical :: others)
              = cast convert (Ok v) canonical).
  { unfold group_to_primitive, lit, coalesce. cbn [nth_error].
    unfold Column in *. rewrite E, M. destruct vs as [| x xs]; [congruence |].
    cbn [bind]. now rewrite C. }
  split; [exact G |]. intros r. rewrite G. apply cast_type_tag.
Qed.

(** The instance of the claim: [{t1: null, t2: "x"}] with [[t1, t2]]
    yields ["x"] typed [t1]. *)
Lemma coalesce_priority_witness :
  group_to_primitive Fixtures.keep
    (Ok (VStruct [("t1", VNull "t1"); ("t2", VPrim "t2" (SStr "x"))])) ""
    ["t1"; "t2"]
  = Ok (VPrim "t1" (SStr "x")).
Proof.
  refine (proj1 (coalesce_priority Fixtures.keep
                   (Ok (VStruct [("t1", VNull "t1"); ("t2", VPrim "t2" (SStr "x"))]))
                   "" "t1" ["t2"] ["t1"] "t2" [] (VPrim "t2" (SStr "x"))
                   eq_refl _ eq_refl eq_refl _)).
  - intros t [Ht | []]. subst t. exists "t1". reflexivity.
  - intros t [].
Defined.

(** C6. Coalesce null propagation: when the fields named by the type tags
    [canonical :: others] are all null, [group_to_primitive] does not fail
    and returns the null typed [canonical]. *)
Theorem coalesce_all_null
  (convert : forall (from to : string), Scalar -> option Scalar)
  (col : Column) (remaining : string) (canonical : string) (others : list string) :
  (forall t, In t (canonical :: others) ->
             exists ty, getField col t = Ok (VNull ty)) ->
  group_to_primitive convert col remaining (canonical :: others)
  = Ok (VNull canonical).
Proof.
  intros H.
  destruct (alternatives_all_null col (canonical :: others) H)
    as (vs & M & L & C & N).
  unfold group_to_primitive, lit, coalesce. cbn [nth_error].
  unfold Column in *. rewrite M.
  destruct vs as [| x xs]; [discriminate |].
  cbn [bind]. rewrite C. apply cast_null. apply N. now left.
Qed.

Lemma coalesce_all_null_witness :
  group_to_primitive Fixtures.keep
    (Ok (VStruct [("t1", VNull "t1"); ("t2", VNull "t2")])) "" ["t1"; "t2"]
  = Ok (VNull "t1").
Proof.
  apply (coalesce_all_null Fixtures.keep
           (Ok (VStruct [("t1", VNull "t1"); ("t2", VNull "t2")])) "" "t1" ["t2"]).
  intros t [Ht | [Ht | []]]; subst t.
  - exists "t1". reflexivity.
  - exists "t2". reflexivity.
Defined.

(** C10. The [remaining] argument of [group_to_primitive] is not used: two
    calls that differ in it only return the same. *)
Theorem group_to_primitive_ignores_remaining
  (convert : forall (from to : string), Scalar -> option Scalar)
  (col : Column) (types : list string) (r1 r2 : string) :
  group_to_primitive convert col r1 types
  = group_to_primitive convert col r2 types.
Proof. reflexivity. Qed.

(** ** Empty paths and empty segments *)

Section EmptySegments.
Import PyStr PyStrFacts ColumnFacts.

Context {Args : Type}.
Variable leaf : @LeafTransform Args.
Variable array_path : option string.
Variable args : Args.

Lemma empty_head_terminal (remaining : string) :
  hd "" (split dot remaining) = "" -> terminal remaining array_path = true.
Proof.
  intros H. unfold terminal, descends, pre_terminal. rewrite H.
  change (nonempty "") with false. now rewrite !andb_false_r.
Qed.

(** A path whose first segment is empty ends there. *)
Lemma update_struct_empty_head (col : Column) (remaining : string) :
  hd "" (split dot remaining) = "" ->
  update_struct col remaining leaf array_path args =
  match array_path with
  | Some array_path =>
      withField col (hd "" (split dot array_path))
        (transform (getField col (hd "" (split dot array_path)))
           (fun c => leaf c (join "." (tl (split dot array_path))) args))
  | None => withField col "" (leaf (getField col "") "" args)
  end.
Proof.
  intros H. pose proof (empty_head_terminal _ H) as T.
  rewrite update_struct_unfold. cbv zeta.
  rewrite (terminal_not_descends _ _ T), (terminal_not_pre_terminal _ _ T), H.
  reflexivity.
Qed.

Lemma Forall_cut {A} (P : A -> Prop) (l1 l2 : list A) (x : A) :
  Forall P (l1 ++ x :: l2) -> Forall P (l1 ++ [x]).
Proof.
  intros F. apply Forall_app in F as [F1 F2]. apply Forall_app. split.
  - exact F1.
  - inversion F2; subst. now repeat constructor.
Qed.

(** A list of segments with an empty one has a first empty one. *)
Lemma first_empty_segment (segments : list string) :
  In "" segments ->
  exists above below,
    segments = above ++ "" :: below /\ Forall (fun s => s <> "") above.
Proof.
  induction segments as [| s rest IH]; intros H; [destruct H |].
  destruct (string_dec s "") as [-> | Hs].
  - exists [], rest. now split.
  - destruct H as [H | H]; [congruence |].
    destruct (IH H) as (above & below & -> & F).
    exists (s :: above), below. split; [reflexivity | now constructor].
Qed.

(** What follows the first empty segment of a path is ignored. *)
Lemma empty_segment_cut (above : list string) :
  forall (col : Column) (remaining : string) (below : list string),
    split dot remaining = above ++ "" :: below ->
    Forall (fun s => s <> "") above ->
    update_struct col remaining leaf array_path args
    = update_struct col (join "." (above ++ [""])) leaf array_path args.
Proof.
  induction above as [| s above IH]; intros col remaining below E NE.
  - rewrite !update_struct_empty_head; [reflexivity | reflexivity |].
    now rewrite E.
  - simpl in E. inversion NE as [| ? ? Hs NE']; subst.
    assert (T : above ++ "" :: below <> []) by (now destruct above).
    assert (T' : above ++ [""] <> []) by (now destruct above).
    assert (E' : split dot (join "." ((s :: above) ++ [""])) = s :: above ++ [""]).
    { change "."%string with (String dot ""). apply split_join; [discriminate |].
      pose proof (split_free dot remaining) as F. rewrite E in F.
      apply (Forall_cut _ (s :: above) below "" F). }
    rewrite (update_struct_unfold _ _ _ col remaining).
    rewrite (update_struct_unfold _ _ _ col (join "." ((s :: above) ++ [""]))).
    cbv zeta.
    rewrite (descends_cons _ _ _ E Hs T), (descends_cons _ _ _ E' Hs T').
    rewrite E, E'. simpl hd. simpl tl.
    now rewrite (IH (getField col s) _ below (split_join_tail _ [s] _ E T) NE').
Qed.

End EmptySegments.

(** C4, as the code has it.  The empty path splits into the one segment
    [""], not into no segment; without an array path [update_struct] then
    writes the field named [""] of the root, with the leaf applied to that
    field of the root.  The leaf is not applied to the root. *)
Theorem empty_path_addresses_empty_field {Args : Type} (root : Column)
  (leaf : @LeafTransform Args) (args : Args) :
  PyStr.split dot "" = [""]
  /\ update_struct root "" leaf None args
     = withField root "" (leaf (getField root "") "" args).
Proof.
  split; [reflexivity |].
  now rewrite update_struct_empty_head.
Qed.

(** C4, as the claim has it, fails: with the leaf that returns its column,
    the call on scenario A's root fails for want of a field named [""],
    where the leaf applied to the root returns the root; and on a struct
    with such a field, the result is the struct with that field
    incremented, where incrementing the struct itself fails. *)
Lemma empty_path_not_leaf_of_root :
  update_struct (Ok Fixtures.rootA) "" Fixtures.identity None tt
  <> Fixtures.identity (Ok Fixtures.rootA) "" tt
  /\ update_struct (Ok (VStruct [("", Fixtures.int 1); ("b", Fixtures.int 5)])) ""
       Fixtures.increment None tt
     = Ok (VStruct [("", Fixtures.int 2); ("b", Fixtures.int 5)])
  /\ Fixtures.increment (Ok (VStruct [("", Fixtures.int 1); ("b", Fixtures.int 5)]))
       "" tt
     = Err TypeMismatch.
Proof. split; [discriminate | split; reflexivity]. Qed.

(** C5, as the claim has it, fails: the trailing dot of ["a."] is not
    rejected, with an array path the call succeeds and broadcasts into the
    array below [a]; nor is the empty segment of ["a..b"], which addresses
    the field named [""] below [a]. *)
Lemma empty_segment_not_rejected :
  update_struct
    (Ok (VStruct [("a", VStruct [("items", VArray [VStruct [("x", Fixtures.int 1)]])])]))
    "a." Fixtures.negate (Some "items.x") tt
  = Ok (VStruct [("a", VStruct [("items", VArray [VStruct [("x", Fixtures.int (-1))]])])])
  /\ update_struct
       (Ok (VStruct [("a", VStruct [("", Fixtures.int 1); ("b", Fixtures.int 5)])]))
       "a..b" Fixtures.increment None tt
     = Ok (VStruct [("a", VStruct [("", Fixtures.int 2); ("b", Fixtures.int 5)])]).
Proof. split; reflexivity. Qed.

(** ** End-to-end scenarios *)

(** C7. Scenario A, plain nested update: [{a: {b: {c: 1, d: 2}}}], path
    ["a.b.c"], no array path, leaf = add one, gives
    [{a: {b: {c: 2, d: 2}}}]. *)
Theorem scenario_A_nested_update :
  update_struct (Ok Fixtures.rootA) "a.b.c" Fixtures.increment None tt
  = Ok Fixtures.rootA'.
Proof. reflexivity. Qed.

(** C3, as the code has it.  Scenario B, array broadcast: the array path is
    followed from the struct the dotted path leads to, so for
    [{items: [{x: 1}, {x: 2}]}] the dotted path is the empty one; with the
    array path ["items.x"] and a leaf that negates the addressed value the
    result is [{items: [{x: -1}, {x: -2}]}]. *)
Theorem scenario_B_array_broadcast :
  update_struct (Ok Fixtures.rootB) "" Fixtures.negate (Some "items.x") tt
  = Ok Fixtures.rootB'.
Proof. reflexivity. Qed.

(** C3, as the claim has it, fails: with the dotted path ["items"] the
    traversal first steps into the array and then looks for the field
    [items] in it, which is a type mismatch. *)
Lemma scenario_B_items_path_fails :
  update_struct (Ok Fixtures.rootB) "items" Fixtures.negate (Some "items.x") tt
  <> Ok Fixtures.rootB'
  /\ update_struct (Ok Fixtures.rootB) "items" Fixtures.negate (Some "items.x") tt
     = Err TypeMismatch.
Proof. split; [discriminate | reflexivity]. Qed.

(** Scenario C, drift repair: [{value: {type_1: "5", type_2: null}}]
    becomes [{value: "5"}], typed [type_1]. *)
Lemma scenario_C_drift_repair :
  update_struct (Ok Fixtures.rootC) "value" (group_to_primitive Fixtures.keep)
    None ["type_1"; "type_2"]
  = Ok Fixtures.rootC'.
Proof. reflexivity. Qed.

(** [struct_repl] as the leaf of a broadcast: every element of the array
    is repaired. *)
Lemma scenario_struct_repl :
  update_struct (Ok Fixtures.rootD) "" (struct_repl Fixtures.keep)
    (Some "items.x.value") (["type_1"; "type_2"], [])
  = Ok Fixtures.rootD'.
Proof. reflexivity. Qed.

(** ** Array broadcast *)

(** C8. In the terminal array case the field named by the head of the array
    path, an array [A], is replaced by an array of the same length whose
    element at each index [i] is the leaf applied to [A[i]], the rest of the
    array path and the extra arguments, so that it depends on [A[i]] only;
    the call returns whenever the leaf returns on every element. *)
Theorem array_broadcast {Args : Type} (col : Column) (remaining array_path : string)
  (A : list Value) (leaf : @LeafTransform Args) (args : Args) :
  terminal remaining (Some array_path) = true ->
  getField col (hd "" (PyStr.split dot array_path)) = Ok (VArray A) ->
  (forall r,
      update_struct col remaining leaf (Some array_path) args = Ok r ->
      exists B,
        getField (Ok r) (hd "" (PyStr.split dot array_path)) = Ok (VArray B)
        /\ length B = length A
        /\ forall i a,
             nth_error A i = Some a ->
             exists b,
               nth_error B i = Some b
               /\ leaf (Ok a) (PyStr.join "." (tl (PyStr.split dot array_path))) args
                  = Ok b)
  /\ ((forall a, In a A ->
         exists b,
           leaf (Ok a) (PyStr.join "." (tl (PyStr.split dot array_path))) args
           = Ok b) ->
      exists r, update_struct col remaining leaf (Some array_path) args = Ok r).
Proof.
  intros T G.
  rewrite update_struct_unfold. cbv zeta.
  rewrite (terminal_not_descends _ _ T), (terminal_not_pre_terminal _ _ T), G.
  cbn [bind transform]. split.
  - intros r H.
    rewrite (ColumnFacts.getField_withField_same _ _ _ _ H).
    destruct (ColumnFacts.withField_ok _ _ _ _ H) as (fields & x & _ & Hx & _).
    destruct (mapM _ A) as [B |] eqn:M; cbn [bind] in Hx |- *; [| discriminate].
    exists B. split; [reflexivity | split].
    + exact (ColumnFacts.mapM_length _ _ _ M).
    + exact (ColumnFacts.mapM_nth _ _ _ M).
  - intros L.
    destruct (ColumnFacts.mapM_ok (fun e => leaf (Ok e) _ args) A L) as [B M].
    rewrite M. cbn [bind].
    destruct col as [[| | fields |] |]; try discriminate.
    unfold withField. cbn [bind].
    destruct (has_field _ fields); eexists; reflexivity.
Qed.

Lemma array_broadcast_witness :
  exists B,
    getField (Ok Fixtures.rootB') "items" = Ok (VArray B)
    /\ length B = 2
    /\ nth_error B 1 = Some (VStruct [("x", Fixtures.int (-2))]).
Proof.
  destruct (proj1 (array_broadcast (Ok Fixtures.rootB) "" "items.x"
                     [VStruct [("x", Fixtures.int 1)]; VStruct [("x", Fixtures.int 2)]]
                     Fixtures.negate tt eq_refl eq_refl)
              Fixtures.rootB' eq_refl) as (B & HB & HL & HN).
  exists B. split; [exact HB |]. split; [exact HL |].
  destruct (HN 1 (VStruct [("x", Fixtures.int 2)]) eq_refl) as (b & Hb & Hleaf).
  rewrite Hb. f_equal. vm_compute in Hleaf. now inversion Hleaf.
Defined.

(** ** Termination *)

(** C9. [update_struct] terminates within one frame more than the path has
    segments.  In the descend state the recursive call is on a path with
    fewer segments, in the pre-terminal state it is on the empty path,
    which has fewer segments; the body of the function consults its
    recursive calls on paths with fewer segments only, and in a terminal
    state not at all; with a budget of more frames than the path has
    segments the call returns, and what it returns is [update_struct]. *)
Theorem update_struct_terminates {Args : Type} (col : Column) (remaining : string)
  (struct_func : @LeafTransform Args) (array_path : option string) (args : Args) :
  (descends remaining = true ->
   path_len (PyStr.join "." (tl (PyStr.split dot remaining))) < path_len remaining)
  /\ (pre_terminal remaining array_path = true ->
      path_len "" < path_len remaining)
  /\ (forall self1 self2 : Traversal,
        (forall c r, path_len r < path_len remaining ->
                     self1 c r struct_func array_path args
                     = self2 c r struct_func array_path args) ->
        update_struct_body self1 col remaining struct_func array_path args
        = update_struct_body self2 col remaining struct_func array_path args)
  /\ (terminal remaining array_path = true ->
      forall self1 self2 : Traversal,
        update_struct_body self1 col remaining struct_func array_path args
        = update_struct_body self2 col remaining struct_func array_path args)
  /\ (forall fuel, path_len remaining < fuel ->
        update_struct_fuel fuel col remaining struct_func array_path args
        = Some (update_struct col remaining struct_func array_path args)).
Proof.
  split; [apply path_len_descend |].
  split; [apply path_len_pre_terminal |].
  split; [intros self1 self2; apply body_ext |].
  split; [intros T self1 self2; now apply body_terminal |].
  intros fuel. apply update_struct_fuel_enough.
Qed.

(** A path of three segments with an array path: four frames are
    enough. *)
Lemma update_struct_terminates_witness :
  path_len "a.b.c" < 4
  /\ update_struct_fuel 4 (Ok Fixtures.rootA) "a.b.c" Fixtures.increment
       (Some "items.x") tt
     = Some (update_struct (Ok Fixtures.rootA) "a.b.c" Fixtures.increment
               (Some "items.x") tt)
  /\ path_len "b.c" < path_len "a.b.c".
Proof.
  pose proof (update_struct_terminates (Ok Fixtures.rootA) "a.b.c"
                Fixtures.increment (Some "items.x") tt) as (D & _ & _ & _ & F).
  split; [vm_compute; lia |].
  split; [apply F; vm_compute; lia |].
  exact (D eq_refl).
Defined.

(** The bound is reached: with an array path, a path of three segments
    needs its four frames; without one, three are enough. *)
Lemma frames_of_three_segments :
  update_struct_fuel 3 (Ok Fixtures.rootA) "a.b.c" Fixtures.increment
    (Some "items.x") tt = None
  /\ update_struct_fuel 3 (Ok Fixtures.rootA) "a.b.c" Fixtures.increment
       None tt = Some (Ok Fixtures.rootA').
Proof. split; reflexivity. Qed.

(** ** More facts on the column API *)

Module ColumnFacts2.
Import ColumnFacts.

Lemma withField_err_new (col : Column) (name : string) (e : Error) :
  exists e', withField col name (Err e) = Err e'.
Proof. destruct col as [v |e0]; simpl; eauto. Qed.

Lemma get_path_err (path : list string) (e : Error) :
  get_path (Err e) path = Err e.
Proof. induction path as [| s rest IH]; [reflexivity | exact IH]. Qed.

Lemma getField_ok_struct (col : Column) (name : string) (v : Value) :
  getField col name = Ok v ->
  exists fields, col = Ok (VStruct fields) /\ lookup name fields = Some v.
Proof.
  destruct col as [[| | fields |] |]; simpl; try discriminate.
  destruct (lookup name fields) eqn:L; [| discriminate].
  intros H. inversion H; subst. now exists fields.
Qed.

Lemma withField_struct (fields : list (string * Value)) (name : string) (x : Value) :
  exists r, withField (Ok (VStruct fields)) name (Ok x) = Ok r.
Proof. simpl. destruct (has_field name fields); eauto. Qed.

Lemma has_field_replace (name : string) (x : Value) (fields : list (string * Value)) :
  has_field name (replace name x fields) = has_field name fields.
Proof.
  induction fields as [| [n w] rest IH]; simpl; [reflexivity |].
  destruct (String.eqb n name) eqn:E; simpl; rewrite E; simpl;
    [reflexivity | exact IH].
Qed.

Lemma replace_replace (name : string) (x y : Value) (fields : list (string * Value)) :
  replace name y (replace name x fields) = replace name y fields.
Proof.
  induction fields as [| [n w] rest IH]; simpl; [reflexivity |].
  destruct (String.eqb n name) eqn:E; simpl; rewrite E; now rewrite IH.
Qed.

Lemma replace_absent (name : string) (x : Value) (fields : list (string * Value)) :
  has_field name fields = false -> replace name x fields = fields.
Proof.
  induction fields as [| [n w] rest IH]; simpl; [reflexivity |].
  destruct (String.eqb n name) eqn:E; simpl; [discriminate |].
  intros H. now rewrite IH.
Qed.

Lemma has_field_app (name : string) (x : Value) (fields : list (string * Value)) :
  has_field name (fields ++ [(name, x)]) = true.
Proof.
  unfold has_field. rewrite existsb_app. simpl. rewrite String.eqb_refl.
  now rewrite orb_true_r.
Qed.

Lemma replace_app (name : string) (x y : Value) (fields : list (string * Value)) :
  has_field name fields = false ->
  replace name y (fields ++ [(name, x)]) = fields ++ [(name, y)].
Proof.
  intros H. unfold replace. rewrite map_app. fold (replace name y fields).
  rewrite (replace_absent _ _ _ H). simpl. now rewrite String.eqb_refl.
Qed.

(** Writing a field twice is writing it once, with the later column. *)
Lemma withField_withField (col : Column) (name : string) (new1 new2 : Column)
  (r1 : Value) :
  withField col name new1 = Ok r1 ->
  withField (Ok r1) name new2 = withField col name new2.
Proof.
  intros H. destruct (withField_ok _ _ _ _ H) as (fields & x & -> & -> & ->).
  destruct new2 as [y |]; [| reflexivity]. simpl.
  destruct (has_field name fields) eqn:E.
  - now rewrite has_field_replace, E, replace_replace.
  - now rewrite has_field_app, replace_app.
Qed.




Lemma mapM_all_ok {A B} (f : A -> Result B) (l : list A) (l' : list B) :
  mapM f l = Ok l' -> forall a, In a l -> exists b, f a = Ok b.
Proof.
  revert l'. induction l as [| x l IH]; simpl; intros l' H a Ha; [tauto |].
  destruct (f x) as [y |] eqn:Fx; simpl in H; [| discriminate].
  destruct (mapM f l) as [ys |]; simpl in H; [| discriminate].
  destruct Ha as [<- | Ha]; [eauto | now apply (IH ys)].
Qed.

End ColumnFacts2.

(** ** Facts on [rebuild_along] *)

Section RebuildFacts.
Import ColumnFacts ColumnFacts2.

Lemma rebuild_along_app (l1 l2 : list string) (k : Column -> Column) (col : Column) :
  rebuild_along (l1 ++ l2) k col = rebuild_along l1 (rebuild_along l2 k) col.
Proof.
  revert col. induction l1 as [| s l1 IH]; intros col; simpl; [reflexivity |].
  now rewrite IH.
Qed.

Lemma rebuild_along_ext (l : list string) (k1 k2 : Column -> Column) (col : Column) :
  (forall c, k1 c = k2 c) -> rebuild_along l k1 col = rebuild_along l k2 col.
Proof.
  intros H. revert col. induction l as [| s l IH]; intros col; simpl; [apply H |].
  now rewrite IH.
Qed.

(** A rebuild that returned ran [at_end] on the column the segments lead
    to, and its result sits there in what is returned. *)
Lemma rebuild_along_ok (l : list string) (k : Column -> Column) :
  forall (col : Column) (r : Value),
    rebuild_along l k col = Ok r ->
    exists x, k (get_path col l) = Ok x /\ get_path (Ok r) l = Ok x.
Proof.
  induction l as [| s l IH]; intros col r H; simpl in H.
  - exists r. now split.
  - destruct (withField_ok _ _ _ _ H) as (fields & x & _ & Hx & _).
    destruct (IH _ _ Hx) as (y & K & G). exists y.
    rewrite !get_path_cons, (getField_withField_same _ _ _ _ H), Hx.
    now split.
Qed.

(** A rebuild returns when the segments lead somewhere and [at_end]
    returns there. *)
Lemma rebuild_along_succeeds (l : list string) (k : Column -> Column) :
  forall (col : Column) (v x : Value),
    get_path col l = Ok v -> k (get_path col l) = Ok x ->
    exists r, rebuild_along l k col = Ok r.
Proof.
  induction l as [| s l IH]; intros col v x G K; simpl.
  - now exists x.
  - rewrite get_path_cons in G, K.
    destruct (IH _ _ _ G K) as [r' R]. rewrite R.
    destruct (getField col s) as [w |e] eqn:F;
      [| now rewrite get_path_err in G].
    destruct (getField_ok_struct _ _ _ F) as (fields & -> & _).
    apply withField_struct.
Qed.


(** A rebuild leaves, at each level, the fields beside the segment as they
    were. *)
Lemma rebuild_along_others (above : list string) (s : string) (below : list string)
  (k : Column -> Column) (col : Column) (r : Value) :
  rebuild_along (above ++ s :: below) k col = Ok r ->
  others s (get_path (Ok r) above) = others s (get_path col above).
Proof.
  rewrite rebuild_along_app. intros H.
  destruct (rebuild_along_ok _ _ _ _ H) as (x & K & G).
  rewrite G. simpl in K. exact (others_withField _ _ _ _ K).
Qed.

End RebuildFacts.

(** ** [update_struct] written out *)

Section ClosedForms.
Import PyStr PyStrFacts ColumnFacts ColumnFacts2.

Context {Args : Type}.
Variable leaf : @LeafTransform Args.
Variable array_path : option string.
Variable args : Args.

(** Through segments that are not empty and not the last, [update_struct]
    descends. *)
Lemma descend_through (above : list string) :
  forall (col : Column) (p : string) (rest : list string),
    split dot p = above ++ rest -> rest <> [] ->
    Forall (fun s => s <> "") above ->
    update_struct col p leaf array_path args
    = rebuild_along above
        (fun c => update_struct c (join "." rest) leaf array_path args) col.
Proof.
  induction above as [| s above IH]; intros col p rest E R NE.
  - simpl in *. rewrite <- E. change "."%string with (String dot "").
    now rewrite join_split.
  - simpl in E. inversion NE as [| ? ? Hs NE']; subst.
    assert (T : above ++ rest <> [])
      by (destruct above; [exact R | discriminate]).
    rewrite update_struct_unfold. cbv zeta.
    rewrite (descends_cons _ _ _ E Hs T), E. simpl hd. simpl tl.
    simpl rebuild_along.
    now rewrite (IH (getField col s) _ rest (split_join_tail p [s] _ E T) R NE').
Qed.

Lemma not_descends_single (p last : string) :
  split dot p = [last] -> descends p = false.
Proof. intros E. unfold descends. now rewrite E. Qed.

Lemma pre_terminal_single (p last : string) :
  split dot p = [last] ->
  pre_terminal p array_path = nonempty last && truthy array_path.
Proof. intros E. unfold pre_terminal. now rewrite E. Qed.

End ClosedForms.

Section ClosedFormsOfStates.
Import PyStr PyStrFacts ColumnFacts ColumnFacts2.

Context {Args : Type}.
Variable leaf : @LeafTransform Args.
Variable args : Args.

(** On a path of one segment, without an array path: the single value
    handling. *)
Lemma update_struct_single (col : Column) (p last : string) :
  split dot p = [last] ->
  update_struct col p leaf None args = scalar_step leaf args last col.
Proof.
  intros E. rewrite update_struct_unfold. cbv zeta.
  rewrite (not_descends_single _ _ E), (pre_terminal_single None _ _ E), E.
  simpl truthy. now rewrite andb_false_r.
Qed.

(** Without an array path: descend through all segments but the last, and
    handle the last as a single value. *)
Lemma closed_no_array (col : Column) (p : string) (above : list string)
  (last : string) :
  split dot p = above ++ [last] -> Forall (fun s => s <> "") above ->
  update_struct col p leaf None args
  = rebuild_along above (scalar_step leaf args last) col.
Proof.
  intros E NE.
  rewrite (descend_through leaf None args above col p [last] E) by
    (discriminate || assumption).
  apply rebuild_along_ext. intros c. apply update_struct_single.
  exact (split_join_tail p above [last] E ltac:(discriminate)).
Qed.

(** With an array path that is not empty: descend through all segments,
    and broadcast in the struct reached. *)
Lemma closed_array (col : Column) (p a : string) (segments : list string) :
  truthy (Some a) = true ->
  split dot p = segments -> Forall (fun s => s <> "") segments ->
  update_struct col p leaf (Some a) args
  = rebuild_along segments (array_step leaf args a) col.
Proof.
  intros T E NE.
  destruct (exists_last (l := segments)) as (above & last & ->).
  { rewrite <- E. apply split_not_nil. }
  apply Forall_app in NE as [NEa NEl]. inversion NEl as [| ? ? Hl _]; subst.
  rewrite (descend_through leaf (Some a) args above col p [last] E) by
    (discriminate || assumption).
  rewrite rebuild_along_app. apply rebuild_along_ext. intros c.
  pose proof (split_join_tail p above [last] E ltac:(discriminate)) as E1.
  rewrite update_struct_unfold. cbv zeta.
  rewrite (not_descends_single _ _ E1), (pre_terminal_single (Some a) _ _ E1), E1.
  apply nonempty_true in Hl. rewrite Hl, T. simpl hd. simpl rebuild_along.
  now rewrite update_struct_empty_head.
Qed.


(** On a path with an empty segment: descend to the first empty segment,
    and run the terminal step there. *)
Lemma closed_empty_segment (col : Column) (p : string) (array_path : option string)
  (above below : list string) :
  split dot p = above ++ "" :: below -> Forall (fun s => s <> "") above ->
  update_struct col p leaf array_path args
  = rebuild_along above
      (fun c => match array_path with
                | Some a => array_step leaf args a c
                | None => scalar_step leaf args "" c
                end) col.
Proof.
  intros E NE.
  rewrite (descend_through leaf array_path args above col p ("" :: below) E) by
    (discriminate || assumption).
  apply rebuild_along_ext. intros c.
  pose proof (split_join_tail p above ("" :: below) E ltac:(discriminate)) as E1.
  rewrite update_struct_empty_head by (now rewrite E1).
  now destruct array_path.
Qed.

(** A successful single value handling: the column was a struct, the leaf
    returned, and what it returned is what the field now holds. *)
Lemma scalar_step_ok (c : Column) (last : string) (x : Value) :
  scalar_step leaf args last c = Ok x ->
  exists fields v,
    c = Ok (VStruct fields)
    /\ leaf (getField c last) last args = Ok v
    /\ getField (Ok x) last = Ok v.
Proof.
  unfold scalar_step. intros H.
  destruct (withField_ok _ _ _ _ H) as (fields & v & -> & L & _).
  exists fields, v. repeat split; [exact L |].
  rewrite (getField_withField_same _ _ _ _ H). exact L.
Qed.

(** A successful array handling: the column was a struct, the broadcast
    returned an array, and that array is what the field now holds. *)
Lemma array_step_ok (c : Column) (a : string) (x : Value) :
  array_step leaf args a c = Ok x ->
  exists fields B,
    c = Ok (VStruct fields)
    /\ transform (getField c (hd "" (split dot a)))
         (fun e => leaf e (join "." (tl (split dot a))) args) = Ok (VArray B)
    /\ getField (Ok x) (hd "" (split dot a)) = Ok (VArray B).
Proof.
  unfold array_step. intros H.
  destruct (withField_ok _ _ _ _ H) as (fields & v & -> & L & _).
  assert (exists B, v = VArray B) as [B ->].
  { unfold transform in L. destruct (getField _ _) as [[| | |elems] |];
      simpl in L; try discriminate.
    destruct (mapM _ elems) as [B |]; simpl in L; [| discriminate].
    inversion L. now exists B. }
  exists fields, B. repeat split; [exact L |].
  rewrite (getField_withField_same _ _ _ _ H). exact L.
Qed.

(** A returned frame-budgeted call returned what [update_struct]
    returns. *)
Lemma fuel_result (array_path : option string) (n : nat) :
  forall (col : Column) (p : string) (c : Column),
    update_struct_fuel n col p leaf array_path args = Some c ->
    c = update_struct col p leaf array_path args.
Proof.
  induction n as [| n IH]; intros col p c H; [discriminate |].
  simpl in H. unfold update_struct_body in H.
  fold (descends p) in H. fold (pre_terminal p array_path) in H.
  rewrite update_struct_unfold. cbv zeta.
  destruct (descends p).
  - destruct (update_struct_fuel n _ _ _ _ _) as [new |] eqn:R;
      simpl in H; [| discriminate].
    rewrite <- (IH _ _ _ R). congruence.
  - destruct (pre_terminal p array_path).
    + destruct (update_struct_fuel n _ _ _ _ _) as [new |] eqn:R;
        simpl in H; [| discriminate].
      rewrite <- (IH _ _ _ R). congruence.
    + destruct array_path; congruence.
Qed.

(** The frames a path of non-empty segments takes: as many frames as
    segments are too few for a call that goes on to an array, and fewer
    are too few for any call. *)
Lemma frames_too_few (array_path : option string) (above : list string) :
  forall (col : Column) (p : string) (rest : list string),
    split dot p = above ++ rest -> rest <> [] ->
    Forall (fun s => s <> "") above ->
    update_struct_fuel (length above) col p leaf array_path args = None.
Proof.
  induction above as [| s above IH]; intros col p rest E R NE; [reflexivity |].
  simpl in E. inversion NE as [| ? ? Hs NE']; subst.
  assert (T : above ++ rest <> [])
    by (destruct above; [exact R | discriminate]).
  pose proof (descends_cons _ _ _ E Hs T) as D. unfold descends in D.
  simpl. unfold update_struct_body. rewrite D, E. simpl hd. simpl tl.
  now rewrite (IH (getField col s) _ rest (split_join_tail p [s] _ E T) R NE').
Qed.

End ClosedFormsOfStates.

(** C5, as the code has it.  A path with an empty segment is not rejected:
    the first empty segment ends the path.  The call descends through the
    segments before it, and at the struct reached there the terminal step
    runs with the field name [""]: the array broadcast when an array path
    is given, and otherwise the write of the field named [""] with the
    leaf applied to that field; every level is written back on the way up.
    What follows the empty segment is ignored: the call returns what the
    call on the path cut after that segment returns. *)
Theorem empty_segment_ends_path {Args : Type} (col : Column) (remaining : string)
  (leaf : @LeafTransform Args) (array_path : option string) (args : Args) :
  In "" (PyStr.split dot remaining) ->
  exists above below,
    PyStr.split dot remaining = above ++ "" :: below
    /\ Forall (fun s => s <> "") above
    /\ update_struct col remaining leaf array_path args
       = rebuild_along above
           (fun c =>
              match array_path with
              | Some array_path =>
                  withField c (hd "" (PyStr.split dot array_path))
                    (transform (getField c (hd "" (PyStr.split dot array_path)))
                       (fun e => leaf e (PyStr.join "."
                                           (tl (PyStr.split dot array_path)))
                                   args))
              | None => withField c "" (leaf (getField c "") "" args)
              end) col
    /\ update_struct col remaining leaf array_path args
       = update_struct col (PyStr.join "." (above ++ [""])) leaf array_path args.
Proof.
  intros H. destruct (first_empty_segment _ H) as (above & below & E & NE).
  exists above, below. split; [exact E |]. split; [exact NE |]. split.
  - rewrite (closed_empty_segment leaf args col remaining array_path
               above below E NE).
    apply rebuild_along_ext. intros c. now destruct array_path.
  - now apply empty_segment_cut with (below := below).
Qed.

(** The path ["a..b"]: the traversal stops at the empty segment below [a],
    increments the field named [""] there, and never looks at [b]. *)
Lemma empty_segment_ends_path_witness :
  In "" (PyStr.split dot "a..b")
  /\ update_struct
       (Ok (VStruct [("a", VStruct [("", Fixtures.int 1); ("b", Fixtures.int 5)])]))
       "a..b" Fixtures.increment None tt
     = rebuild_along ["a"]
         (fun c => withField c "" (Fixtures.increment (getField c "") "" tt))
         (Ok (VStruct [("a", VStruct [("", Fixtures.int 1); ("b", Fixtures.int 5)])])).
Proof.
  assert (H : In "" (PyStr.split dot "a..b")) by (right; left; reflexivity).
  split; [exact H |].
  destruct (empty_segment_ends_path
              (Ok (VStruct [("a", VStruct [("", Fixtures.int 1);
                                           ("b", Fixtures.int 5)])])) "a..b"
              Fixtures.increment None tt H) as (above & below & E & NE & C & _).
  rewrite C.
  destruct above as [| s [| s' above]].
  - inversion E.
  - inversion E. reflexivity.
  - inversion E as [[Hs Hs' R]]. subst s'. inversion NE as [| ? ? _ NE']; subst.
    inversion NE' as [| ? ? Hn _]; subst. now contradiction Hn.
Defined.

(** ** Frames, failing leaves and successive updates *)

Section MoreTraverserFacts.
Import PyStr PyStrFacts ColumnFacts ColumnFacts2.

Context {Args : Type}.
Variable args : Args.

(** One more frame does not change what a call returned. *)
Lemma fuel_mono (leaf : @LeafTransform Args) (array_path : option string) (n : nat) :
  forall (col : Column) (p : string) (c : Column),
    update_struct_fuel n col p leaf array_path args = Some c ->
    update_struct_fuel (S n) col p leaf array_path args = Some c.
Proof.
  induction n as [| n IH]; intros col p c H; [discriminate |].
  change (update_struct_body (update_struct_fuel n) col p leaf array_path args
          = Some c) in H.
  change (update_struct_body (update_struct_fuel (S n)) col p leaf array_path args
          = Some c).
  unfold update_struct_body in *.
  destruct (_ && _).
  - destruct (update_struct_fuel n _ _ _ _ _) as [new |] eqn:R;
      [| discriminate].
    now rewrite (IH _ _ _ R).
  - destruct (_ && _ && _); [| exact H].
    destruct (update_struct_fuel n _ _ _ _ _) as [new |] eqn:R;
      [| discriminate].
    now rewrite (IH _ _ _ R).
Qed.

Lemma fuel_none_below (leaf : @LeafTransform Args) (array_path : option string)
  (col : Column) (p : string) (n m : nat) :
  update_struct_fuel n col p leaf array_path args = None -> m <= n ->
  update_struct_fuel m col p leaf array_path args = None.
Proof.
  intros H L. induction L as [| n L IH]; [exact H |].
  apply IH. destruct (update_struct_fuel n col p leaf array_path args) eqn:R;
    [| reflexivity].
  apply fuel_mono in R. congruence.
Qed.

(** Without a pending array, a path of non-empty segments returns within
    as many frames as it has segments. *)
Lemma frames_enough_falsy (leaf : @LeafTransform Args) (array_path : option string)
  (above : list string) :
  truthy array_path = false ->
  forall (col : Column) (p : string) (last : string),
    split dot p = above ++ [last] -> Forall (fun s => s <> "") above ->
    update_struct_fuel (S (length above)) col p leaf array_path args <> None.
Proof.
  intros F. induction above as [| s above IH]; intros col p last E NE.
  - simpl in E. simpl. unfold update_struct_body.
    pose proof (not_descends_single _ _ E) as D. unfold descends in D.
    pose proof (pre_terminal_single array_path _ _ E) as P.
    unfold pre_terminal in P. rewrite D, P, F, andb_false_r.
    destruct array_path; discriminate.
  - simpl in E. inversion NE as [| ? ? Hs NE']; subst.
    assert (T : above ++ [last] <> []) by (now destruct above).
    pose proof (descends_cons _ _ _ E Hs T) as D. unfold descends in D.
    change (update_struct_body (update_struct_fuel (S (length above)))
              col p leaf array_path args <> None).
    unfold update_struct_body. rewrite D, E. simpl hd. simpl tl.
    specialize (IH (getField col s) _ last (split_join_tail p [s] _ E T) NE').
    destruct (update_struct_fuel (S (length above)) _ _ _ _ _);
      [discriminate | congruence].
Qed.

(** With a pending array, a path of non-empty segments needs one frame
    more than it has segments. *)
Lemma frames_too_few_truthy (leaf : @LeafTransform Args) (a : string)
  (above : list string) :
  truthy (Some a) = true ->
  forall (col : Column) (p : string) (last : string),
    split dot p = above ++ [last] -> Forall (fun s => s <> "") (above ++ [last]) ->
    update_struct_fuel (S (length above)) col p leaf (Some a) args = None.
Proof.
  intros T. induction above as [| s above IH]; intros col p last E NE.
  - simpl in E. inversion NE as [| ? ? Hl _]; subst.
    simpl. unfold update_struct_body.
    pose proof (not_descends_single _ _ E) as D. unfold descends in D.
    pose proof (pre_terminal_single (Some a) _ _ E) as P.
    unfold pre_terminal in P. apply nonempty_true in Hl.
    rewrite D, P, Hl, T. reflexivity.
  - simpl in E. inversion NE as [| ? ? Hs NE']; subst.
    assert (T' : above ++ [last] <> []) by (now destruct above).
    pose proof (descends_cons _ _ _ E Hs T') as D. unfold descends in D.
    change (update_struct_body (update_struct_fuel (S (length above)))
              col p leaf (Some a) args = None).
    unfold update_struct_body. rewrite D, E. simpl hd. simpl tl.
    now rewrite (IH (getField col s) _ last (split_join_tail p [s] _ E T') NE').
Qed.

Lemma path_len_segments (p : string) (segments : list string) :
  split dot p = segments -> Forall (fun s => s <> "") segments ->
  path_len p = length segments.
Proof.
  intros E NE. unfold path_len. rewrite E.
  destruct p; [| reflexivity].
  simpl in E. subst segments. inversion NE; congruence.
Qed.

(** Without an array path, a leaf that always fails makes the call
    fail. *)
Lemma failing_leaf_fuel (leaf : @LeafTransform Args) (n : nat) :
  (forall c s, exists e, leaf c s args = Err e) ->
  forall (col : Column) (p : string),
    path_len p < n ->
    exists e, update_struct col p leaf None args = Err e.
Proof.
  intros L. induction n as [| n IH]; intros col p H; [lia |].
  rewrite update_struct_unfold. cbv zeta.
  assert (P : pre_terminal p None = false)
    by (unfold pre_terminal, truthy; apply andb_false_r).
  rewrite P. destruct (descends p) eqn:D.
  - pose proof (path_len_descend p D) as Hd.
    destruct (IH (getField col (hd "" (split dot p)))
                (join "." (tl (split dot p)))) as [e R]; [lia |].
    rewrite R. apply withField_err_new.
  - destruct (L (getField col (hd "" (split dot p))) (hd "" (split dot p)))
      as [e R].
    rewrite R. apply withField_err_new.
Qed.

(** Two updates at the same path are one update with the second leaf
    after the first. *)
Lemma update_twice_fuel (f g : @LeafTransform Args) (n : nat) :
  forall (col : Column) (p : string) (r1 : Value),
    path_len p < n ->
    update_struct col p f None args = Ok r1 ->
    update_struct (Ok r1) p g None args
    = update_struct col p (leaf_after g f) None args.
Proof.
  induction n as [| n IH]; intros col p r1 H U; [lia |].
  rewrite (update_struct_unfold g), (update_struct_unfold (leaf_after g f)).
  rewrite update_struct_unfold in U. cbv zeta in *.
  assert (P : pre_terminal p None = false)
    by (unfold pre_terminal, truthy; apply andb_false_r).
  rewrite P in *. destruct (descends p) eqn:D.
  - pose proof (path_len_descend p D) as Hd.
    destruct (withField_ok _ _ _ _ U) as (fields & x & _ & Hx & _).
    rewrite (getField_withField_same _ _ _ _ U), Hx.
    assert (Hlt : path_len (join "." (tl (split dot p))) < n) by lia.
    rewrite (IH _ _ x Hlt Hx).
    exact (withField_withField _ _ _ _ _ U).
  - rewrite (getField_withField_same _ _ _ _ U).
    exact (withField_withField _ _ _ _ _ U).
Qed.

End MoreTraverserFacts.

(** ** More facts on [split] *)

Lemma split_append_dot (p : string) :
  PyStr.split dot (p ++ ".") = PyStr.split dot p ++ [""].
Proof.
  induction p as [| c p IH]; [reflexivity |].
  simpl. rewrite IH. destruct (Ascii.eqb c dot); [reflexivity |].
  pose proof (PyStrFacts.split_not_nil dot p) as N.
  destruct (PyStr.split dot p); [congruence | reflexivity].
Qed.

(** ** More facts on the leaves *)

Section MoreCoalescerFacts.
Import PyStr PyStrFacts ColumnFacts ColumnFacts2.

Variable convert : forall (from to : string), Scalar -> option Scalar.

Lemma cast_ok (col : Column) (ty : string) (r : Value) :
  cast convert col ty = Ok r -> exists v, col = Ok v.
Proof. destruct col as [v |]; [eauto | discriminate]. Qed.

Lemma coalesce_ok (cols : list Column) (v : Value) :
  coalesce cols = Ok v -> forall c, In c cols -> exists w, c = Ok w.
Proof.
  unfold coalesce. intros H c Hc.
  destruct (mapM (fun c => c) cols) as [vs |] eqn:M; [| discriminate].
  exact (mapM_all_ok _ _ _ M c Hc).
Qed.

(** On a failed column the coalescing leaf fails. *)
Lemma group_to_primitive_kw_err (e : Error) (remaining : string)
  (extra : list string * list (string * Value)) :
  exists e', group_to_primitive_kw convert (Err e) remaining extra = Err e'.
Proof.
  destruct extra as [types [| kw kwargs]]; unfold group_to_primitive_kw; simpl;
    [| eauto].
  destruct types as [| t types]; unfold group_to_primitive; simpl; eauto.
Qed.

(** Where [struct_repl] works: in the field named by the first segment of
    its path, however that segment reads, and from there as
    [update_struct] does. *)
Lemma struct_repl_closed (col : Column) (remaining : string) (first : string)
  (above : list string) (last : string)
  (extra : list string * list (string * Value)) :
  split dot remaining = first :: above ++ [last] ->
  Forall (fun s => s <> "") above ->
  struct_repl convert col remaining extra
  = rebuild_along (first :: above)
      (scalar_step (group_to_primitive_kw convert) extra last) col.
Proof.
  intros E NE. unfold struct_repl. rewrite E. simpl hd. simpl tl.
  simpl rebuild_along. f_equal.
  apply closed_no_array; [| exact NE].
  apply (split_join_tail remaining [first] (above ++ [last]) E).
  now destruct above.
Qed.

End MoreCoalescerFacts.

(** ** What a call of [update_struct] does, and when it returns *)

(** X1. Without an array path, on a path whose segments before the last are
    not empty: when [update_struct] returns [r], the leaf returned on the
    column the whole path leads to in the root, called with the last
    segment as its [remaining], and what it returned is what the path leads
    to in [r]. *)
Theorem update_struct_replaces_addressed {Args : Type} (root : Column)
  (p : string) (leaf : @LeafTransform Args) (args : Args)
  (above : list string) (last : string) (r : Value) :
  PyStr.split dot p = above ++ [last] ->
  Forall (fun s => s <> "") above ->
  update_struct root p leaf None args = Ok r ->
  exists v,
    leaf (get_path root (above ++ [last])) last args = Ok v
    /\ get_path (Ok r) (above ++ [last]) = Ok v.
Proof.
  intros E NE U. rewrite (closed_no_array leaf args root p above last E NE) in U.
  destruct (rebuild_along_ok _ _ _ _ U) as (x & K & G).
  destruct (scalar_step_ok _ _ _ _ _ K) as (fields & v & _ & L & Gx).
  exists v. rewrite !get_path_snoc, G. now split.
Qed.

Lemma update_struct_replaces_addressed_witness :
  exists v,
    Fixtures.increment (get_path (Ok Fixtures.rootA) ["a"; "b"; "c"]) "c" tt = Ok v
    /\ get_path (Ok Fixtures.rootA') ["a"; "b"; "c"] = Ok v.
Proof.
  apply (update_struct_replaces_addressed (Ok Fixtures.rootA) "a.b.c"
           Fixtures.increment tt ["a"; "b"] "c" Fixtures.rootA' eq_refl).
  - repeat constructor; discriminate.
  - reflexivity.
Defined.

(** X2. Without an array path, on a path whose segments before the last are
    not empty, [update_struct] returns exactly when those segments lead to
    a struct in the root and the leaf returns on the column the whole path
    leads to: a missing or non-struct field on the way and a failing leaf
    both fail the call, and nothing else does. *)
Theorem update_struct_succeeds_iff {Args : Type} (root : Column)
  (p : string) (leaf : @LeafTransform Args) (args : Args)
  (above : list string) (last : string) :
  PyStr.split dot p = above ++ [last] ->
  Forall (fun s => s <> "") above ->
  (exists r, update_struct root p leaf None args = Ok r)
  <-> (exists fields v,
         get_path root above = Ok (VStruct fields)
         /\ leaf (get_path root (above ++ [last])) last args = Ok v).
Proof.
  intros E NE. rewrite (closed_no_array leaf args root p above last E NE).
  split.
  - intros [r U]. destruct (rebuild_along_ok _ _ _ _ U) as (x & K & G).
    destruct (scalar_step_ok _ _ _ _ _ K) as (fields & v & C & L & _).
    exists fields, v. rewrite get_path_snoc. now split.
  - intros (fields & v & G & L). rewrite get_path_snoc in L.
    destruct (ColumnFacts2.withField_struct fields last v) as [x W].
    apply (rebuild_along_succeeds above _ root (VStruct fields) x G).
    unfold scalar_step. now rewrite L, G.
Qed.

Lemma update_struct_succeeds_iff_witness :
  exists r, update_struct (Ok Fixtures.rootA) "a.b.c" Fixtures.increment None tt
            = Ok r.
Proof.
  apply (proj2 (update_struct_succeeds_iff (Ok Fixtures.rootA) "a.b.c"
                  Fixtures.increment tt ["a"; "b"] "c" eq_refl
                  ltac:(repeat constructor; discriminate))).
  exists [("c", Fixtures.int 1); ("d", Fixtures.int 2)], (Fixtures.int 2).
  split; reflexivity.
Defined.

(** X3. With an array path that is not empty, on a path of non-empty
    segments: when [update_struct] returns [r], the broadcast ran on the
    field, named by the head of the array path, of the struct the whole
    dotted path leads to; it returned an array, and that array is what
    [r] holds there. *)
Theorem update_struct_broadcast_location {Args : Type} (root : Column)
  (p a : string) (leaf : @LeafTransform Args) (args : Args)
  (segments : list string) (r : Value) :
  truthy (Some a) = true ->
  PyStr.split dot p = segments ->
  Forall (fun s => s <> "") segments ->
  update_struct root p leaf (Some a) args = Ok r ->
  exists B,
    transform (get_path root (segments ++ [hd "" (PyStr.split dot a)]))
      (fun e => leaf e (PyStr.join "." (tl (PyStr.split dot a))) args)
    = Ok (VArray B)
    /\ get_path (Ok r) (segments ++ [hd "" (PyStr.split dot a)]) = Ok (VArray B).
Proof.
  intros T E NE U. rewrite (closed_array leaf args root p a segments T E NE) in U.
  destruct (rebuild_along_ok _ _ _ _ U) as (x & K & G).
  destruct (array_step_ok _ _ _ _ _ K) as (fields & B & _ & L & Gx).
  exists B. rewrite !get_path_snoc, G. now split.
Qed.

(** The array below [a]: with the dotted path ["a"] and the array path
    ["items.x"], the broadcast lands at [a.items]. *)
Lemma update_struct_broadcast_location_witness :
  exists B,
    get_path (Ok (VStruct [("a", Fixtures.rootB')])) ["a"; "items"] = Ok (VArray B).
Proof.
  destruct (update_struct_broadcast_location
              (Ok (VStruct [("a", Fixtures.rootB)])) "a" "items.x"
              Fixtures.negate tt ["a"] (VStruct [("a", Fixtures.rootB')])
              eq_refl eq_refl ltac:(repeat constructor; discriminate) eq_refl)
    as (B & _ & G).
  exists B. exact G.
Defined.

(** X4. With an array path that is not empty, on a path of non-empty
    segments, [update_struct] returns exactly when the dotted path leads
    to a struct in the root and the broadcast returns on the field of that
    struct named by the head of the array path: the call fails when that
    field is missing or is no array, and when the leaf fails on an
    element. *)
Theorem update_struct_array_succeeds_iff {Args : Type} (root : Column)
  (p a : string) (leaf : @LeafTransform Args) (args : Args)
  (segments : list string) :
  truthy (Some a) = true ->
  PyStr.split dot p = segments ->
  Forall (fun s => s <> "") segments ->
  (exists r, update_struct root p leaf (Some a) args = Ok r)
  <-> (exists fields B,
         get_path root segments = Ok (VStruct fields)
         /\ transform (get_path root (segments ++ [hd "" (PyStr.split dot a)]))
              (fun e => leaf e (PyStr.join "." (tl (PyStr.split dot a))) args)
            = Ok (VArray B)).
Proof.
  intros T E NE. rewrite (closed_array leaf args root p a segments T E NE).
  split.
  - intros [r U]. destruct (rebuild_along_ok _ _ _ _ U) as (x & K & G).
    destruct (array_step_ok _ _ _ _ _ K) as (fields & B & C & L & _).
    exists fields, B. rewrite get_path_snoc. now split.
  - intros (fields & B & G & L). rewrite get_path_snoc in L.
    destruct (ColumnFacts2.withField_struct fields
                (hd "" (PyStr.split dot a)) (VArray B)) as [x W].
    apply (rebuild_along_succeeds segments _ root (VStruct fields) x G).
    unfold array_step. now rewrite L, G.
Qed.

Lemma update_struct_array_succeeds_iff_witness :
  exists r,
    update_struct (Ok (VStruct [("a", Fixtures.rootB)])) "a" Fixtures.negate
      (Some "items.x") tt = Ok r.
Proof.
  apply (proj2 (update_struct_array_succeeds_iff
                  (Ok (VStruct [("a", Fixtures.rootB)])) "a" "items.x"
                  Fixtures.negate tt ["a"] eq_refl eq_refl
                  ltac:(repeat constructor; discriminate))).
  exists [("items", VArray [VStruct [("x", Fixtures.int 1)];
                            VStruct [("x", Fixtures.int 2)]])],
         [VStruct [("x", Fixtures.int (-1))]; VStruct [("x", Fixtures.int (-2))]].
  split; reflexivity.
Defined.



(** X6. Without an array path, two updates at the same path compose: when
    the update with the leaf [f] returns [r1], the update of [r1] with the
    leaf [g] is the update of the root with [g] after [f]. *)
Theorem update_struct_twice {Args : Type} (root : Column) (p : string)
  (f g : @LeafTransform Args) (args : Args) (r1 : Value) :
  update_struct root p f None args = Ok r1 ->
  update_struct (Ok r1) p g None args
  = update_struct root p (leaf_after g f) None args.
Proof.
  apply (update_twice_fuel args f g (S (path_len p))). lia.
Qed.

Lemma update_struct_twice_witness :
  update_struct (Ok Fixtures.rootA') "a.b.c" Fixtures.increment None tt
  = update_struct (Ok Fixtures.rootA) "a.b.c"
      (leaf_after Fixtures.increment Fixtures.increment) None tt.
Proof.
  apply (update_struct_twice (Ok Fixtures.rootA) "a.b.c"
           Fixtures.increment Fixtures.increment tt Fixtures.rootA' eq_refl).
Defined.

(** X7. The frames a call takes, on a path of non-empty segments: as many
    as the path has segments, and one more when an array path that is not
    empty is given.  With that many frames the call returns what
    [update_struct] returns, with fewer it does not return. *)
Theorem update_struct_frames_exact {Args : Type} (col : Column) (p : string)
  (leaf : @LeafTransform Args) (array_path : option string) (args : Args)
  (segments : list string) :
  PyStr.split dot p = segments ->
  Forall (fun s => s <> "") segments ->
  let frames :=
    if truthy array_path then S (length segments) else length segments in
  update_struct_fuel frames col p leaf array_path args
  = Some (update_struct col p leaf array_path args)
  /\ forall fuel, fuel < frames ->
       update_struct_fuel fuel col p leaf array_path args = None.
Proof.
  intros E NE.
  destruct (exists_last (l := segments)) as (above & last & ->).
  { rewrite <- E. apply PyStrFacts.split_not_nil. }
  rewrite length_app. simpl length. rewrite Nat.add_1_r.
  destruct (truthy array_path) eqn:T; cbv zeta.
  - destruct array_path as [a |]; [| discriminate]. split.
    + apply update_struct_fuel_enough.
      rewrite (path_len_segments p _ E NE), length_app. simpl. lia.
    + intros fuel H.
      apply (fuel_none_below args leaf (Some a) col p (S (length above)));
        [| lia].
      now apply (frames_too_few_truthy args leaf a above T col p last).
  - apply Forall_app in NE as [NEa _]. split.
    + pose proof (frames_enough_falsy args leaf array_path above T col p last
                    E NEa) as N.
      destruct (update_struct_fuel (S (length above)) col p leaf array_path args)
        as [c |] eqn:R; [| congruence].
      now rewrite (fuel_result leaf args array_path _ _ _ _ R).
    + intros fuel H.
      apply (fuel_none_below args leaf array_path col p (length above)); [| lia].
      apply (frames_too_few leaf args array_path above col p [last] E);
        [discriminate | exact NEa].
Qed.

Lemma update_struct_frames_exact_witness :
  update_struct_fuel 3 (Ok Fixtures.rootA) "a.b.c" Fixtures.increment None tt
  = Some (Ok Fixtures.rootA')
  /\ update_struct_fuel 2 (Ok Fixtures.rootA) "a.b.c" Fixtures.increment None tt
     = None.
Proof.
  destruct (update_struct_frames_exact (Ok Fixtures.rootA) "a.b.c"
              Fixtures.increment None tt ["a"; "b"; "c"] eq_refl
              ltac:(repeat constructor; discriminate)) as [HS HN].
  split; [exact HS | apply HN; simpl; lia].
Defined.

(** ** Edge cases of the dotted path and of the array path *)

(** X8. With an array path that is not empty, a trailing dot on a dotted
    path of non-empty segments changes nothing: the empty segment after
    the dot ends the path where the path ends anyway. *)
Theorem trailing_dot_with_array_path {Args : Type} (col : Column) (p a : string)
  (leaf : @LeafTransform Args) (args : Args) :
  truthy (Some a) = true ->
  Forall (fun s => s <> "") (PyStr.split dot p) ->
  update_struct col (p ++ ".") leaf (Some a) args
  = update_struct col p leaf (Some a) args.
Proof.
  intros T NE.
  rewrite (closed_array leaf args col p a _ T eq_refl NE).
  now rewrite (closed_empty_segment leaf args col (p ++ ".") (Some a)
                 (PyStr.split dot p) [] (split_append_dot p) NE).
Qed.

Lemma trailing_dot_with_array_path_witness :
  update_struct (Ok (VStruct [("a", Fixtures.rootB)])) "a." Fixtures.negate
    (Some "items.x") tt
  = Ok (VStruct [("a", Fixtures.rootB')]).
Proof.
  etransitivity.
  - exact (trailing_dot_with_array_path (Ok (VStruct [("a", Fixtures.rootB)]))
             "a" "items.x" Fixtures.negate tt eq_refl
             ltac:(repeat constructor; discriminate)).
  - reflexivity.
Defined.



(** X10. With an array path that is not empty, on a path of non-empty
    segments: when [update_struct] returns [r], then at every level of the
    dotted path the fields beside the segment taken are in [r] as in the
    root, with their values and in their order, and so are, in the struct
    the dotted path leads to, the fields beside the one named by the head
    of the array path. *)
Theorem sibling_preservation_array_path {Args : Type} (root : Column)
  (p a : string) (leaf : @LeafTransform Args) (args : Args)
  (segments : list string) (r : Value) :
  truthy (Some a) = true ->
  PyStr.split dot p = segments ->
  Forall (fun s => s <> "") segments ->
  update_struct root p leaf (Some a) args = Ok r ->
  (forall above segment below,
      segments = above ++ segment :: below ->
      others segment (get_path (Ok r) above)
      = others segment (get_path root above))
  /\ others (hd "" (PyStr.split dot a)) (get_path (Ok r) segments)
     = others (hd "" (PyStr.split dot a)) (get_path root segments).
Proof.
  intros T E NE U. rewrite (closed_array leaf args root p a segments T E NE) in U.
  split.
  - intros above segment below ->.
    exact (rebuild_along_others above segment below _ root r U).
  - destruct (rebuild_along_ok _ _ _ _ U) as (x & K & G). rewrite G.
    exact (ColumnFacts.others_withField _ _ _ _ K).
Qed.

Lemma sibling_preservation_array_path_witness :
  others "items"
    (get_path (Ok (VStruct [("a", VStruct [("n", Fixtures.int 9);
                                            ("items", VArray [VStruct [("x", Fixtures.int (-1))]])])]))
       ["a"])
  = Ok [("n", Fixtures.int 9)].
Proof.
  etransitivity; [| reflexivity].
  exact (proj2 (sibling_preservation_array_path
                    (Ok (VStruct [("a", VStruct [("n", Fixtures.int 9);
                                                 ("items", VArray [VStruct [("x", Fixtures.int 1)]])])]))
                    "a" "items.x" Fixtures.negate tt ["a"]
                    (VStruct [("a", VStruct [("n", Fixtures.int 9);
                                             ("items", VArray [VStruct [("x", Fixtures.int (-1))]])])])
                    eq_refl eq_refl ltac:(repeat constructor; discriminate)
                    eq_refl)).
Defined.

(** X11. In the descend state the body of [update_struct] makes one
    recursive call, on the field named by the first segment and with a
    path that, split again, is the list of the segments after the first:
    the traversal takes the segments one by one, none is lost or cut; the
    field is then written back with what the call returned. *)
Theorem descend_consumes_one_segment {Args : Type} (self : Traversal)
  (col : Column) (p : string) (leaf : @LeafTransform Args)
  (array_path : option string) (args : Args) :
  descends p = true ->
  exists p',
    PyStr.split dot p' = tl (PyStr.split dot p)
    /\ update_struct_body self col p leaf array_path args
       = match self (getField col (hd "" (PyStr.split dot p))) p'
                 leaf array_path args with
         | Some new => Some (withField col (hd "" (PyStr.split dot p)) new)
         | None => None
         end
    /\ update_struct col p leaf array_path args
       = withField col (hd "" (PyStr.split dot p))
           (update_struct (getField col (hd "" (PyStr.split dot p))) p'
              leaf array_path args).
Proof.
  intros D. exists (PyStr.join "." (tl (PyStr.split dot p))).
  split; [| split].
  - pose proof D as D'. unfold descends in D'.
    apply andb_true_iff in D' as [D' _]. apply Nat.ltb_lt in D'.
    apply (split_join_tail p [hd "" (PyStr.split dot p)]).
    + apply PyStrFacts.split_cons.
    + intros N. rewrite N in D'. simpl in D'. lia.
  - unfold update_struct_body. fold (descends p). now rewrite D.
  - rewrite update_struct_unfold. cbv zeta. now rewrite D.
Qed.

Lemma descend_consumes_one_segment_witness :
  exists p',
    PyStr.split dot p' = [""; "b"; ""]
    /\ update_struct (Ok Fixtures.rootA) "a..b." Fixtures.increment None tt
       = withField (Ok Fixtures.rootA) "a"
           (update_struct (getField (Ok Fixtures.rootA) "a") p'
              Fixtures.increment None tt).
Proof.
  destruct (descend_consumes_one_segment (update_struct_fuel 0)
              (Ok Fixtures.rootA) "a..b." Fixtures.increment None tt eq_refl)
    as (p' & S & _ & U).
  exists p'. split; [exact S | exact U].
Defined.

(** ** The leaves *)

(** X12. [group_to_primitive] returns only on a list of type tags that is
    not empty and names a readable field of the column with every entry;
    what it returns is typed as the first entry.  An empty list, and a tag
    that names no field, fail the call. *)
Theorem group_to_primitive_returns_only_if
  (convert : forall (from to : string), Scalar -> option Scalar)
  (col : Column) (remaining : string) (types : list string) (r : Value) :
  group_to_primitive convert col remaining types = Ok r ->
  exists canonical rest,
    types = canonical :: rest
    /\ type_tag r = Some canonical
    /\ forall t, In t types -> exists v, getField col t = Ok v.
Proof.
  destruct types as [| canonical rest]; [discriminate |].
  unfold group_to_primitive, lit. cbn [nth_error]. intros H.
  exists canonical, rest. split; [reflexivity |].
  split; [exact (cast_type_tag convert _ _ _ H) |].
  destruct (cast_ok convert _ _ _ H) as [v C].
  intros t Ht. apply (coalesce_ok _ v C).
  now apply (in_map (fun t => getField col t)).
Qed.

Lemma group_to_primitive_returns_only_if_witness :
  exists v,
    getField (Ok (VStruct [("t1", VNull "t1"); ("t2", VPrim "t2" (SStr "x"))])) "t2"
    = Ok v.
Proof.
  destruct (group_to_primitive_returns_only_if Fixtures.keep
              (Ok (VStruct [("t1", VNull "t1"); ("t2", VPrim "t2" (SStr "x"))]))
              "" ["t1"; "t2"] (VPrim "t1" (SStr "x")) eq_refl)
    as (canonical & rest & _ & _ & F).
  apply F. right. left. reflexivity.
Defined.

(** X13. [struct_repl], called without keyword arguments on a path of at
    least two segments of which the inner ones are not empty: when it
    returns [r], [group_to_primitive] returned on the column the whole
    path leads to in the input, and what it returned is what the path
    leads to in [r]. *)
Theorem struct_repl_replaces_addressed
  (convert : forall (from to : string), Scalar -> option Scalar)
  (col : Column) (remaining : string) (first : string) (above : list string)
  (last : string) (types : list string) (r : Value) :
  PyStr.split dot remaining = first :: above ++ [last] ->
  Forall (fun s => s <> "") above ->
  struct_repl convert col remaining (types, []) = Ok r ->
  exists v,
    group_to_primitive convert (get_path col (first :: above ++ [last])) last types
    = Ok v
    /\ get_path (Ok r) (first :: above ++ [last]) = Ok v.
Proof.
  intros E NE U.
  rewrite (struct_repl_closed convert col remaining first above last _ E NE) in U.
  destruct (rebuild_along_ok _ _ _ _ U) as (x & K & G).
  destruct (scalar_step_ok _ _ _ _ _ K) as (fields & v & _ & L & Gx).
  exists v.
  change (first :: above ++ [last]) with ((first :: above) ++ [last]).
  rewrite !get_path_snoc, G. now split.
Qed.

Lemma struct_repl_replaces_addressed_witness :
  get_path (Ok (VStruct [("x", Fixtures.rootC')])) ["x"; "value"]
  = Ok (VPrim "type_1" (SStr "5")).
Proof.
  destruct (struct_repl_replaces_addressed Fixtures.keep
              (Ok (VStruct [("x", Fixtures.rootC)])) "x.value" "x" [] "value"
              ["type_1"; "type_2"] (VStruct [("x", Fixtures.rootC')])
              eq_refl (Forall_nil _) eq_refl) as (v & L & G).
  simpl app in L, G. etransitivity; [exact G |].
  symmetry. etransitivity; [| exact L]. reflexivity.
Defined.

(** X14. [struct_repl] on a path of one segment addresses the field named
    [""] of the struct in that segment: when that struct has no such
    field, the call fails, whatever the type tags. *)
Theorem struct_repl_single_segment_fails
  (convert : forall (from to : string), Scalar -> option Scalar)
  (col : Column) (remaining : string) (segment : string)
  (extra : list string * list (string * Value)) (e : Error) :
  PyStr.split dot remaining = [segment] ->
  getField (getField col segment) "" = Err e ->
  exists e', struct_repl convert col remaining extra = Err e'.
Proof.
  intros E G. unfold struct_repl. rewrite E. simpl hd. simpl tl.
  change (PyStr.join "." []) with "".
  rewrite (update_struct_single _ extra (getField col segment) "" "" eq_refl).
  unfold scalar_step. rewrite G.
  destruct (group_to_primitive_kw_err convert e "" extra) as [e1 ->].
  destruct (ColumnFacts2.withField_err_new (getField col segment) "" e1) as [e2 ->].
  apply ColumnFacts2.withField_err_new.
Qed.

Lemma struct_repl_single_segment_fails_witness :
  exists e',
    struct_repl Fixtures.keep (Ok Fixtures.rootC) "value"
      (["type_1"; "type_2"], []) = Err e'.
Proof.
  apply (struct_repl_single_segment_fails Fixtures.keep (Ok Fixtures.rootC)
           "value" "value" (["type_1"; "type_2"], []) PathNotFound eq_refl eq_refl).
Defined.

(** X15. [struct_repl] hands its keyword arguments on to
    [group_to_primitive], which takes none: a call with a keyword argument
    fails, on every column and every path. *)
Theorem struct_repl_kwargs_fail
  (convert : forall (from to : string), Scalar -> option Scalar)
  (col : Column) (remaining : string) (types : list string)
  (kw : string * Value) (kwargs : list (string * Value)) :
  exists e, struct_repl convert col remaining (types, kw :: kwargs) = Err e.
Proof.
  unfold struct_repl.
  destruct (failing_leaf_fuel (types, kw :: kwargs) (group_to_primitive_kw convert)
              (S (path_len (PyStr.join "." (tl (PyStr.split dot remaining)))))
              (fun c s => ex_intro _ TypeError eq_refl)
              (getField col (hd "" (PyStr.split dot remaining)))
              (PyStr.join "." (tl (PyStr.split dot remaining)))
              (Nat.lt_succ_diag_r _)) as [e ->].
  apply ColumnFacts2.withField_err_new.
Qed.

(** X16. [struct_repl], on a path of at least two segments of which the
    inner ones are not empty: when it returns [r], at every level of the
    path the fields beside the segment taken are in [r] as in the input,
    with their values and in their order. *)
Theorem struct_repl_siblings
  (convert : forall (from to : string), Scalar -> option Scalar)
  (col : Column) (remaining : string) (first : string) (above : list string)
  (last : string) (extra : list string * list (string * Value)) (r : Value) :
  PyStr.split dot remaining = first :: above ++ [last] ->
  Forall (fun s => s <> "") above ->
  struct_repl convert col remaining extra = Ok r ->
  forall pre segment post,
    first :: above ++ [last] = pre ++ segment :: post ->
    others segment (get_path (Ok r) pre) = others segment (get_path col pre).
Proof.
  intros E NE U pre segment post D.
  rewrite (struct_repl_closed convert col remaining first above last _ E NE) in U.
  change (scalar_step (group_to_primitive_kw convert) extra last)
    with (rebuild_along [last]
            (fun c => group_to_primitive_kw convert c last extra)) in U.
  rewrite <- rebuild_along_app in U.
  change ((first :: above) ++ [last]) with (first :: above ++ [last]) in U.
  rewrite D in U.
  exact (rebuild_along_others pre segment post _ col r U).
Qed.

Lemma struct_repl_siblings_witness :
  others "value"
    (get_path (Ok (VStruct [("x", VStruct [("value", VPrim "type_1" (SStr "5"));
                                            ("n", Fixtures.int 9)])])) ["x"])
  = Ok [("n", Fixtures.int 9)].
Proof.
  etransitivity; [| reflexivity].
  exact (struct_repl_siblings Fixtures.keep
             (Ok (VStruct [("x", VStruct [("value", VStruct [("type_1", VPrim "type_1" (SStr "5"));
                                                            ("type_2", VNull "type_2")]);
                                          ("n", Fixtures.int 9)])]))
             "x.value" "x" [] "value" (["type_1"; "type_2"], [])
             (VStruct [("x", VStruct [("value", VPrim "type_1" (SStr "5"));
                                      ("n", Fixtures.int 9)])])
             eq_refl (Forall_nil _) eq_refl ["x"] "value" [] eq_refl).
Defined.

(** X17. [group_to_primitive] reads the fields named by the type tags and
    nothing else of its column: two columns that agree on those fields
    give the same result. *)
Theorem group_to_primitive_reads_alternatives_only
  (convert : forall (from to : string), Scalar -> option Scalar)
  (col1 col2 : Column) (remaining : string) (types : list string) :
  (forall t, In t types -> getField col1 t = getField col2 t) ->
  group_to_primitive convert col1 remaining types
  = group_to_primitive convert col2 remaining types.
Proof.
  intros H. unfold group_to_primitive.
  now rewrite (map_ext_in (fun t => getField col1 t) (fun t => getField col2 t)
                 types H).
Qed.

Lemma group_to_primitive_reads_alternatives_only_witness :
  group_to_primitive Fixtures.keep
    (Ok (VStruct [("t1", VNull "t1"); ("t2", VPrim "t2" (SStr "x"));
                  ("note", Fixtures.int 3)])) "" ["t1"; "t2"]
  = group_to_primitive Fixtures.keep
      (Ok (VStruct [("t2", VPrim "t2" (SStr "x")); ("t1", VNull "t1")])) ""
      ["t1"; "t2"].
Proof.
  apply group_to_primitive_reads_alternatives_only.
  intros t [<- | [<- | []]]; reflexivity.
Defined.
